(** * job_runner: a shallow embedding of the job-supervision kernel

    The development follows the packages of the repository:

    - [bufferz]    the broadcast byte log ([MultiReader]);
    - [rt], [exec] what the code uses of the Go runtime, of the operating
                   system and of [os/exec];
    - [cgroupz]    the v2 control-group manager;
    - [jobs]       the job supervisor (package [pkg/jobs]);
    - [authorizer] the static role table;
    - [service]    the job registry (package [lib/jobs], type [Service]);
    - [api]        the gRPC adapter (package [lib/jobs], type [Jobs]).

    The definitions of all packages come first; the modules [*_facts] after
    them hold the properties.

    Go's [int] and [int32] are integers of [Z] (the 32-bit wrap-around of the
    id counter is written out), byte slices are [list byte], Go maps are
    [gmap]s, and everything the operating system decides (whether a system call
    fails, how a child terminates, which ready case a [select] picks) is an
    explicit argument of the function that depends on it. *)

From Stdlib Require Import ZArith Strings.Ascii Strings.Byte DecimalString.
From stdpp Require Import gmap strings list sorting.

Open Scope Z_scope.

(** [[]byte(s)] *)
Definition bytes_of (s : string) : list byte := String.list_byte_of_string s.

(* ===================================================================== *)
(** * Package bufferz *)
(* ===================================================================== *)

Module bufferz.

(** The errors a [MultiReader] hands out: [io.EOF], the error of [Write]
    after [Close], and [ctx.Err()] of a cancelled reader context. *)
Inductive error : Type :=
| EOF
| ErrCloseCalled
| CtxErr.

#[global] Instance error_eq_dec : EqDecision error.
Proof. solve_decision. Defined.

(** [type MultiReader struct]: the mutex and the condition variable are
    part of the concurrent system below; [closeChan] is [true] once the
    channel is closed, [closed] is the [uint32] flag. *)
Record MultiReader : Type := mkMultiReader {
  data : list byte;
  closeChan : bool;
  closed : Z
}.

Definition NewMultiReaderBuffer : MultiReader :=
  {| data := []; closeChan := false; closed := 0 |}.

(** [atomic.LoadUint32(&m.closed) > 0] *)
Definition closeCalled (m : MultiReader) : bool := 0 <? closed m.

(** ** The atomic actions of the three methods *)

(** [m.data = append(m.data, p...)] *)
Definition append_data (m : MultiReader) (p : list byte) : MultiReader :=
  {| data := data m ++ p; closeChan := closeChan m; closed := closed m |}.

(** [atomic.StoreUint32(&m.closed, 1)] *)
Definition store_closed (m : MultiReader) : MultiReader :=
  {| data := data m; closeChan := closeChan m; closed := 1 |}.

(** [close(m.closeChan)]: closing a closed channel panics ([None]). *)
Definition close_chan (m : MultiReader) : option MultiReader :=
  if closeChan m then None
  else Some {| data := data m; closeChan := true; closed := closed m |}.

(** One pass through the [for] loop of the reader closure, up to the
    [break], the [return] or the [cond.Wait()].  [done] says whether
    [ctx.Done()] is closed; when both channels of the [select] are ready Go
    picks one of them, [pick] says which. *)
Inductive iter : Type :=
| IterCancelled
| IterBreak
| IterWait.

Definition loop_iter (m : MultiReader) (pos : nat) (done pick : bool) : iter :=
  match done, closeChan m with
  | true, true => if pick then IterCancelled else IterBreak
  | true, false => IterCancelled
  | false, true => IterBreak
  | false, false =>
      if (pos <? length (data m))%nat then IterBreak else IterWait
  end.

(** [copy(p, m.data[pos:])] for a buffer [p] of length [n]: the bytes that
    are copied. *)
Definition copy_out (m : MultiReader) (pos n : nat) : list byte :=
  take n (drop pos (data m)).

(** The code after the loop: the copy, the advance of [pos] and the EOF
    test.  The result is the new [pos], the bytes put into [p] and the
    error. *)
Definition after_loop (m : MultiReader) (pos n : nat)
  : nat * list byte * option error :=
  let bs := if (pos <? length (data m))%nat then copy_out m pos n else [] in
  let pos' := (pos + length bs)%nat in
  (pos', bs,
   if closeCalled m && (pos' =? length (data m))%nat then Some EOF else None).

(** ** The methods run without interference *)

(** [Write]: the byte count and the error. *)
Definition Write (m : MultiReader) (p : list byte)
  : MultiReader * (nat * option error) :=
  if closeCalled m then (m, (0%nat, Some ErrCloseCalled))
  else (append_data m p, (length p, None)).

(** [Close]: [None] is the panic of a double [close] of the channel. *)
Definition Close (m : MultiReader) : option (MultiReader * option error) :=
  if closeCalled m then Some (m, None)
  else m' ← close_chan (store_closed m); Some (m', None).

(** The closure variable of [GetReader]. *)
Record Reader : Type := mkReader { pos : nat }.

Definition GetReader : Reader := {| pos := 0 |}.

(** A call of the reader returns or stays in [cond.Wait()]. *)
Inductive read_result : Type :=
| Returns (r : Reader) (bs : list byte) (err : option error)
| Blocks.

Definition Read (m : MultiReader) (r : Reader) (n : nat) (done pick : bool)
  : read_result :=
  match loop_iter m (pos r) done pick with
  | IterCancelled => Returns r [] (Some CtxErr)
  | IterBreak =>
      let '(pos', bs, err) := after_loop m (pos r) n in
      Returns {| pos := pos' |} bs err
  | IterWait => Blocks
  end.

(** [read_all]: call the reader with buffers of the lengths [bufs], one
    after the other, and collect the bytes until a call returns an error.
    The context of the reader is never cancelled.  [None]: the buffers ran
    out, or a call blocked. *)
Fixpoint read_all (m : MultiReader) (r : Reader) (bufs : list nat)
  : option (list byte * error) :=
  match bufs with
  | [] => None
  | n :: bufs' =>
      match Read m r n false false with
      | Blocks => None
      | Returns r' bs (Some e) => Some (bs, e)
      | Returns r' bs None =>
          '(rest, e) ← read_all m r' bufs'; Some (bs ++ rest, e)
      end
  end.

(** A run of [Write] calls. *)
Fixpoint writes (m : MultiReader) (ps : list (list byte)) : MultiReader :=
  match ps with
  | [] => m
  | p :: ps' => writes (fst (Write m p)) ps'
  end.

(** ** The concurrent system: one log, one writer, many readers

    The methods are cut at the points where another goroutine can run: at
    the atomic load and store of [closed], and wherever the mutex is taken or
    released.  A section that holds the mutex from [Lock] to [Unlock]
    without touching [closed] is one step.  The reader closure holds the
    mutex across the whole loop and gives it up only inside [cond.Wait()], so
    each pass of its loop is a step of its own and the store of [closed] by
    [Close] can fall between two of them. *)

(** Where the writer is in [Write]. *)
Inductive writer_pc : Type :=
| WIdle
| WPending (p : list byte)      (* past the [closeCalled] test *)
| WAppended (p : list byte).    (* past the [Unlock], before [Broadcast] *)

(** Where a caller of [Close] is. *)
Inductive closer_pc : Type :=
| CStore                        (* past the [closeCalled] test *)
| CLock                         (* past the store, before [Lock] *)
| CReturned.

(** Where a reader is in its closure; [n] is [len(p)]. *)
Inductive reader_pc : Type :=
| RIdle
| RLoop (n : nat)               (* holds the mutex, at the top of the loop *)
| RWait (n : nat) (woken : bool) (* inside [cond.Wait()] *)
| RCopy (n : nat).              (* holds the mutex, past the loop *)

(** One reader handed out by [GetReader]: the closure variable [pos], its
    context, its watcher goroutine, the place of its current call, and two
    ghost fields: all bytes its calls have put into their buffers so far, and
    what the last call returned. *)
Record reader_state : Type := mkReaderState {
  r_pos : nat;
  r_done : bool;
  r_watcher : bool;
  r_pc : reader_pc;
  r_seen : list byte;
  r_ret : option (nat * option error)
}.

Record system : Type := mkSystem {
  log : MultiReader;
  mu : bool;                          (* the mutex is held *)
  writer : writer_pc;
  w_ret : option (nat * option error);
  closers : list closer_pc;
  readers : list reader_state
}.

Definition init : system :=
  {| log := NewMultiReaderBuffer; mu := false; writer := WIdle;
     w_ret := None; closers := []; readers := [] |}.

(** [m.cond.Broadcast()]: every goroutine inside [Wait] is woken. *)
Definition wake (r : reader_state) : reader_state :=
  match r_pc r with
  | RWait n _ =>
      {| r_pos := r_pos r; r_done := r_done r; r_watcher := r_watcher r;
         r_pc := RWait n true; r_seen := r_seen r; r_ret := r_ret r |}
  | _ => r
  end.

Definition Broadcast (rs : list reader_state) : list reader_state :=
  wake <$> rs.

Definition set_pc (r : reader_state) (pc : reader_pc) : reader_state :=
  {| r_pos := r_pos r; r_done := r_done r; r_watcher := r_watcher r;
     r_pc := pc; r_seen := r_seen r; r_ret := r_ret r |}.

Inductive label : Type :=
| LGetReader                      (* [GetReader(ctx)] *)
| LCancel (i : nat)               (* the context of reader [i] is cancelled *)
| LWatchCancel (i : nat)          (* watcher: [ctx.Done()], Lock, Broadcast, Unlock *)
| LWatchClose (i : nat)           (* watcher: [closeChan], return *)
| LWriteCall (p : list byte)      (* [Write(p)]: the [closeCalled] test *)
| LWriteAppend                    (* Lock, append, Unlock *)
| LWriteBroadcast                 (* Broadcast, return *)
| LCloseCall                      (* [Close()]: the [closeCalled] test *)
| LCloseStore (c : nat)           (* the atomic store *)
| LCloseChan (c : nat)            (* Lock, close, Broadcast, Unlock, return *)
| LReadCall (i n : nat)           (* the reader is called: Lock *)
| LReadIter (i : nat) (pick : bool) (* one pass of the loop *)
| LReadWake (i : nat)             (* [Wait] takes the mutex again *)
| LReadCopy (i : nat).            (* copy, EOF test, Unlock, return *)

Definition with_readers (s : system) (rs : list reader_state) : system :=
  {| log := log s; mu := mu s; writer := writer s; w_ret := w_ret s;
     closers := closers s; readers := rs |}.

Definition with_mu (s : system) (b : bool) : system :=
  {| log := log s; mu := b; writer := writer s; w_ret := w_ret s;
     closers := closers s; readers := readers s |}.

Definition with_log (s : system) (m : MultiReader) : system :=
  {| log := m; mu := mu s; writer := writer s; w_ret := w_ret s;
     closers := closers s; readers := readers s |}.

Definition with_writer (s : system) (w : writer_pc)
    (ret : option (nat * option error)) : system :=
  {| log := log s; mu := mu s; writer := w; w_ret := ret;
     closers := closers s; readers := readers s |}.

Definition with_closers (s : system) (cs : list closer_pc) : system :=
  {| log := log s; mu := mu s; writer := writer s; w_ret := w_ret s;
     closers := cs; readers := readers s |}.

(** The step function: [None] when the action cannot be taken in [s] (the
    goroutine is elsewhere, or it needs the mutex and the mutex is held), or
    when it panics. *)
Definition step (s : system) (l : label) : option system :=
  match l with
  | LGetReader =>
      Some (with_readers s (readers s ++
        [{| r_pos := 0; r_done := false; r_watcher := true; r_pc := RIdle;
            r_seen := []; r_ret := None |}]))
  | LCancel i =>
      r ← readers s !! i;
      Some (with_readers s (<[i :=
        {| r_pos := r_pos r; r_done := true; r_watcher := r_watcher r;
           r_pc := r_pc r; r_seen := r_seen r; r_ret := r_ret r |}]> (readers s)))
  | LWatchCancel i =>
      r ← readers s !! i;
      if r_watcher r && r_done r && negb (mu s) then
        Some (with_readers s (Broadcast (<[i :=
          {| r_pos := r_pos r; r_done := r_done r; r_watcher := false;
             r_pc := r_pc r; r_seen := r_seen r; r_ret := r_ret r |}]> (readers s))))
      else None
  | LWatchClose i =>
      r ← readers s !! i;
      if r_watcher r && closeChan (log s) then
        Some (with_readers s (<[i :=
          {| r_pos := r_pos r; r_done := r_done r; r_watcher := false;
             r_pc := r_pc r; r_seen := r_seen r; r_ret := r_ret r |}]> (readers s)))
      else None
  | LWriteCall p =>
      match writer s with
      | WIdle =>
          if closeCalled (log s)
          then Some (with_writer s WIdle (Some (0%nat, Some ErrCloseCalled)))
          else Some (with_writer s (WPending p) (w_ret s))
      | _ => None
      end
  | LWriteAppend =>
      match writer s with
      | WPending p =>
          if mu s then None
          else Some (with_writer (with_log s (append_data (log s) p))
                       (WAppended p) (w_ret s))
      | _ => None
      end
  | LWriteBroadcast =>
      match writer s with
      | WAppended p =>
          Some (with_writer (with_readers s (Broadcast (readers s)))
                  WIdle (Some (length p, None)))
      | _ => None
      end
  | LCloseCall =>
      if closeCalled (log s) then Some (with_closers s (closers s ++ [CReturned]))
      else Some (with_closers s (closers s ++ [CStore]))
  | LCloseStore c =>
      match closers s !! c with
      | Some CStore =>
          Some (with_closers (with_log s (store_closed (log s)))
                  (<[c := CLock]> (closers s)))
      | _ => None
      end
  | LCloseChan c =>
      match closers s !! c with
      | Some CLock =>
          if mu s then None
          else
            m ← close_chan (log s);
            Some (with_closers (with_readers (with_log s m) (Broadcast (readers s)))
                    (<[c := CReturned]> (closers s)))
      | _ => None
      end
  | LReadCall i n =>
      r ← readers s !! i;
      match r_pc r with
      | RIdle =>
          if mu s then None
          else Some (with_mu (with_readers s (<[i := set_pc r (RLoop n)]> (readers s))) true)
      | _ => None
      end
  | LReadIter i pick =>
      r ← readers s !! i;
      match r_pc r with
      | RLoop n =>
          match loop_iter (log s) (r_pos r) (r_done r) pick with
          | IterCancelled =>
              Some (with_mu (with_readers s (<[i :=
                {| r_pos := r_pos r; r_done := r_done r; r_watcher := r_watcher r;
                   r_pc := RIdle; r_seen := r_seen r;
                   r_ret := Some (0%nat, Some CtxErr) |}]> (readers s))) false)
          | IterBreak =>
              Some (with_readers s (<[i := set_pc r (RCopy n)]> (readers s)))
          | IterWait =>
              Some (with_mu (with_readers s
                      (<[i := set_pc r (RWait n false)]> (readers s))) false)
          end
      | _ => None
      end
  | LReadWake i =>
      r ← readers s !! i;
      match r_pc r with
      | RWait n true =>
          if mu s then None
          else Some (with_mu (with_readers s (<[i := set_pc r (RLoop n)]> (readers s))) true)
      | _ => None
      end
  | LReadCopy i =>
      r ← readers s !! i;
      match r_pc r with
      | RCopy n =>
          let '(pos', bs, err) := after_loop (log s) (r_pos r) n in
          Some (with_mu (with_readers s (<[i :=
            {| r_pos := pos'; r_done := r_done r; r_watcher := r_watcher r;
               r_pc := RIdle; r_seen := r_seen r ++ bs;
               r_ret := Some (length bs, err) |}]> (readers s))) false)
      | _ => None
      end
  end.

(** A schedule is a list of actions; [run] takes them in order. *)
Fixpoint run (s : system) (ls : list label) : option system :=
  match ls with
  | [] => Some s
  | l :: ls' => s' ← step s l; run s' ls'
  end.

(** The states some interleaving of Write, Close, GetReader, Read and
    cancellation reaches from a fresh log. *)
Definition reachable (s : system) : Prop := ∃ ls, run init ls = Some s.

End bufferz.

(* ===================================================================== *)
(** * The Go runtime and the operating system *)
(* ===================================================================== *)

Module rt.

(** How a call ends: it returns a value, it returns a non-nil [error]
    (with its message), it panics, or it never returns (a [Lock] on a mutex
    that is never released). *)
Inductive res (A : Type) : Type :=
| Ok (a : A)
| Err (e : string)
| Panic (msg : string)
| Block.
Arguments Ok {A} a.
Arguments Err {A} e.
Arguments Panic {A} msg.
Arguments Block {A}.

(** Code that changes a state [S] and ends in one of the four ways. *)
Definition M (S A : Type) : Type := S → S * res A.

Definition ret {S A} (a : A) : M S A := λ s, (s, Ok a).
Definition throw {S A} (e : string) : M S A := λ s, (s, Err e).
Definition panic {S A} (msg : string) : M S A := λ s, (s, Panic msg).
Definition block {S A} : M S A := λ s, (s, Block).

(** [x, err := c; if err != nil { return err }; k x] *)
Definition bind {S A B} (c : M S A) (k : A → M S B) : M S B :=
  λ s, match c s with
       | (s', Ok a) => k a s'
       | (s', Err e) => (s', Err e)
       | (s', Panic msg) => (s', Panic msg)
       | (s', Block) => (s', Block)
       end.

#[global] Instance M_ret {S} : MRet (M S) := λ A a, ret a.
#[global] Instance M_bind {S} : MBind (M S) := λ A B k c, bind c k.

Definition get {S} : M S S := λ s, (s, Ok s).
Definition modify {S} (f : S → S) : M S unit := λ s, (f s, Ok tt).

(** [err := c] with the error kept as a value instead of returned. *)
Definition try {S A} (c : M S A) : M S (A + string) :=
  λ s, match c s with
       | (s', Ok a) => (s', Ok (inl a))
       | (s', Err e) => (s', Ok (inr e))
       | (s', Panic msg) => (s', Panic msg)
       | (s', Block) => (s', Block)
       end.

(** [fmt.Errorf("<pre>%w", err)] on the error path. *)
Definition wrap {S A} (pre : string) (c : M S A) : M S A :=
  λ s, match c s with
       | (s', Err e) => (s', Err (pre +:+ e))
       | r => r
       end.

(** Run code on a part of the state. *)
Definition zoom {S T A} (proj : S → T) (inj : S → T → S) (c : M T A) : M S A :=
  λ s, let '(t, r) := c (proj s) in (inj s t, r).

(** ** Contexts *)

(** [context.Context]: the background context, or the child that
    [context.WithCancel] makes; the child is done once its own cancel function
    was called or its parent is done. *)
Inductive Ctx : Type :=
| Background
| WithCancel (id : nat) (parent : Ctx).

Fixpoint ctxDone (cancelled : gset nat) (c : Ctx) : bool :=
  match c with
  | Background => false
  | WithCancel i p => bool_decide (i ∈ cancelled) || ctxDone cancelled p
  end.

(** ** [exec.Cmd] and [os.ProcessState] *)

(** [syscall.WaitStatus], as far as [Signaled], [Exited] and [ExitStatus]
    tell its values apart. *)
Inductive WaitStatus : Type :=
| WExited (code : Z)
| WSignaled (sig : Z)
| WStopped.

Definition Signaled (ws : WaitStatus) : bool :=
  match ws with WSignaled _ => true | _ => false end.
Definition Exited (ws : WaitStatus) : bool :=
  match ws with WExited _ => true | _ => false end.

(** [ProcessState.ExitCode()]: -1 for a process that was terminated by a
    signal. *)
Definition ExitCode (ws : WaitStatus) : Z :=
  match ws with WExited c => c | _ => -1 end.

Record Cmd : Type := mkCmd {
  Path : string;
  Args : list string;
  cmd_ctx : Ctx;
  Pdeathsig : Z;
  Process : option Z;               (* the pid, once started *)
  ProcessState : option WaitStatus; (* set by [Wait] *)
  finished : bool                   (* [Wait] was called *)
}.

(** ** The world *)

(** What the code does to the outside, in order. *)
Inductive event : Type :=
| EvWriteFile (path : string) (content : list byte) (ok : bool)
| EvMkdirAll (path : string) (ok : bool)
| EvRemoveAll (path : string) (ok : bool)
| EvSleep (ms : Z)
| EvPrint (msg : string)
| EvSpawn (cmd : nat) (ok : bool)
| EvSend (chunk : list byte) (ok : bool).

(** The state outside of the data structures of the repository:
    - [files]: the contents of the regular files;
    - [faults]: for each coming call that the operating system can refuse,
      whether it does and with which error ([None]: it succeeds; when the
      list is used up every call succeeds);
    - [trace]: what was done so far;
    - [cmds], [logs]: the [exec.Cmd] and [MultiReader] objects that
      pointers refer to, a pointer being an index;
    - [cancelled], [next_ctx]: the cancelled contexts and the next fresh
      one. *)
Record world : Type := mkWorld {
  files : gmap string (list byte);
  faults : list (option string);
  trace : list event;
  cmds : list Cmd;
  logs : list bufferz.MultiReader;
  cancelled : gset nat;
  next_ctx : nat
}.

Definition empty_world : world :=
  {| files := ∅; faults := []; trace := []; cmds := []; logs := [];
     cancelled := ∅; next_ctx := 0 |}.

Definition set_files (f : gmap string (list byte) → gmap string (list byte))
    (w : world) : world :=
  {| files := f (files w); faults := faults w; trace := trace w;
     cmds := cmds w; logs := logs w; cancelled := cancelled w;
     next_ctx := next_ctx w |}.

Definition set_faults (fs : list (option string)) (w : world) : world :=
  {| files := files w; faults := fs; trace := trace w;
     cmds := cmds w; logs := logs w; cancelled := cancelled w;
     next_ctx := next_ctx w |}.

Definition emit (e : event) (w : world) : world :=
  {| files := files w; faults := faults w; trace := trace w ++ [e];
     cmds := cmds w; logs := logs w; cancelled := cancelled w;
     next_ctx := next_ctx w |}.

Definition set_cmds (f : list Cmd → list Cmd) (w : world) : world :=
  {| files := files w; faults := faults w; trace := trace w;
     cmds := f (cmds w); logs := logs w; cancelled := cancelled w;
     next_ctx := next_ctx w |}.

Definition set_logs (f : list bufferz.MultiReader → list bufferz.MultiReader)
    (w : world) : world :=
  {| files := files w; faults := faults w; trace := trace w;
     cmds := cmds w; logs := f (logs w); cancelled := cancelled w;
     next_ctx := next_ctx w |}.

Definition set_cancelled (f : gset nat → gset nat) (w : world) : world :=
  {| files := files w; faults := faults w; trace := trace w;
     cmds := cmds w; logs := logs w; cancelled := f (cancelled w);
     next_ctx := next_ctx w |}.

Definition set_next_ctx (n : nat) (w : world) : world :=
  {| files := files w; faults := faults w; trace := trace w;
     cmds := cmds w; logs := logs w; cancelled := cancelled w;
     next_ctx := n |}.

(** The verdict of the operating system on the next call. *)
Definition fault : M world (option string) :=
  λ w, match faults w with
       | [] => (w, Ok None)
       | f :: fs => (set_faults fs w, Ok f)
       end.

Definition Done (c : Ctx) : M world bool :=
  λ w, (w, Ok (ctxDone (cancelled w) c)).

(** [context.WithCancel(parent)]: a child with a fresh name; the cancel
    function that comes with the child is [cancel] at the child. *)
Definition newContext (parent : Ctx) : M world Ctx :=
  λ w, (set_next_ctx (S (next_ctx w)) w, Ok (WithCancel (next_ctx w) parent)).

Definition cancel (c : Ctx) : M world unit :=
  match c with
  | Background => ret tt
  | WithCancel i _ => modify (set_cancelled (λ cs, {[i]} ∪ cs))
  end.

(** ** Package os *)

(** [os.WriteFile(path, content, 0644)] *)
Definition WriteFile (path : string) (content : list byte) : M world unit :=
  f ← fault;
  match f with
  | Some e => modify (emit (EvWriteFile path content false)) ;; throw e
  | None =>
      modify (set_files (λ fs, <[path := content]> fs)) ;;
      modify (emit (EvWriteFile path content true))
  end.

(** [os.MkdirAll(path, 0755)]; directories show in the trace only. *)
Definition MkdirAll (path : string) : M world unit :=
  f ← fault;
  match f with
  | Some e => modify (emit (EvMkdirAll path false)) ;; throw e
  | None => modify (emit (EvMkdirAll path true))
  end.

(** [path] itself or something below it. *)
Definition below (path name : string) : bool :=
  bool_decide (name = path) || String.prefix (path +:+ "/") name.

(** [os.RemoveAll(path)] *)
Definition RemoveAll (path : string) : M world unit :=
  f ← fault;
  match f with
  | Some e => modify (emit (EvRemoveAll path false)) ;; throw e
  | None =>
      modify (set_files (λ fs, filter (λ kv, below path kv.1 = false) fs)) ;;
      modify (emit (EvRemoveAll path true))
  end.

(** [time.Sleep], in milliseconds. *)
Definition Sleep (ms : Z) : M world unit := modify (emit (EvSleep ms)).

(** The line feed of ["\n"]. *)
Definition nl : string := String (ascii_of_nat 10) EmptyString.

(** [fmt.Printf] and [fmt.Println] *)
Definition Printf (msg : string) : M world unit := modify (emit (EvPrint msg)).
Definition Println (msg : string) : M world unit := Printf (msg +:+ nl).

(** ** Package strconv and package filepath *)

(** [strconv.Itoa] *)
Definition Itoa (z : Z) : string := NilZero.string_of_int (Z.to_int z).

(** [strings.Split(s, "/")] *)
Fixpoint split_slash (s : string) : list string :=
  match s with
  | EmptyString => [EmptyString]
  | String c s' =>
      if Ascii.eqb c "/"%char then EmptyString :: split_slash s'
      else match split_slash s' with
           | [] => [String c EmptyString]
           | x :: xs => String c x :: xs
           end
  end.

(** One element of a path met by [filepath.Clean]; [out] holds the
    elements kept so far, the last one first. *)
Definition clean_elem (rooted : bool) (out : list string) (e : string)
  : list string :=
  if bool_decide (e = "") || bool_decide (e = ".") then out
  else if bool_decide (e = "..") then
    match out with
    | top :: rest => if bool_decide (top = "..") then e :: out else rest
    | [] => if rooted then [] else [e]
    end
  else e :: out.

Fixpoint join_slash (es : list string) : string :=
  match es with
  | [] => ""
  | [e] => e
  | e :: es' => e +:+ "/" +:+ join_slash es'
  end.

(** [filepath.Clean] on Unix *)
Definition Clean (path : string) : string :=
  let rooted := String.prefix "/" path in
  let out := foldl (clean_elem rooted) [] (split_slash path) in
  let body := join_slash (reverse out) in
  if rooted then "/" +:+ body
  else if bool_decide (body = "") then "." else body.

(** [filepath.Join]: the elements from the first non-empty one on, joined
    by slashes and cleaned. *)
Fixpoint Join (elem : list string) : string :=
  match elem with
  | [] => ""
  | e :: rest =>
      if bool_decide (e = "") then Join rest else Clean (join_slash elem)
  end.

End rt.

(* ===================================================================== *)
(** * Package cgroupz *)
(* ===================================================================== *)

Module cgroupz.
Import rt.

Record IOLimit : Type := mkIOLimit {
  MaxIO_ : Z;    (* field [MaxIO] of [IOLimit] *)
  Maj : Z;
  Min : Z
}.

Record ResourceLimit : Type := mkResourceLimit {
  CpuWeight : Z;
  MaxMem : Z;
  MaxIO : option IOLimit    (* the pointer, [None] for [nil] *)
}.

Record CgroupController : Type := mkCgroupController {
  Path : string
}.

(** The loop of [cleanUp]: [attempts] more passes, the next sleep lasts
    [duration] milliseconds, [err] is the error of the last pass. *)
Fixpoint cleanUp_loop (attempts : nat) (duration : Z) (err : string)
    (path : string) : M world unit :=
  match attempts with
  | O => throw ("os.RemoveAll: " +:+ err)
  | S attempts' =>
      r ← try (RemoveAll path);
      match r with
      | inl _ => mret tt
      | inr e =>
          Sleep duration ;;
          cleanUp_loop attempts' (duration * 2) e path
      end
  end.

Definition cleanUp (path : string) : M world unit :=
  cleanUp_loop 4 10 "" path.

(** [CgroupController.Close] *)
Definition Close (c : CgroupController) : M world unit := cleanUp (Path c).

(** The deferred function of [New]: when [New] returns an error the
    hierarchy is removed again, and a failure to do so is printed. *)
Definition deferred_cleanUp {A} (path : string) (body : M world A) : M world A :=
  λ w, match body w with
       | (w', Err e) =>
           match try (cleanUp path) w' with
           | (w'', Ok (inr cleanErr)) =>
               (emit (EvPrint ("failed to clean up cgroup: " +:+ cleanErr +:+ nl)) w'',
                Err e)
           | (w'', _) => (w'', Err e)
           end
       | r => r
       end.

(** [fmt.Sprintf("%d:%d %s=%d", io.Maj, io.Min, "wiops", io.MaxIO)] *)
Definition io_max_line (io : IOLimit) : string :=
  Itoa (Maj io) +:+ ":" +:+ Itoa (Min io) +:+ " " +:+ "wiops" +:+ "=" +:+
  Itoa (MaxIO_ io).

Definition New (name mountPoint : string) (limits : ResourceLimit)
  : M world CgroupController :=
  wrap "cgroup.subtree_control write file: "
    (WriteFile (rt.Join [mountPoint; "cgroup.subtree_control"])
       (bytes_of "+cpu +memory +io")) ;;
  let path := rt.Join [mountPoint; name] in
  wrap "os.MkdirAll: " (MkdirAll path) ;;
  deferred_cleanUp path (
    (if bool_decide (CpuWeight limits ≠ 0) then
       wrap "write cpu weight: "
         (WriteFile (rt.Join [path; "cpu.weight"])
            (bytes_of (Itoa (CpuWeight limits))))
     else mret tt) ;;
    (if bool_decide (MaxMem limits ≠ 0) then
       wrap "write memory max: "
         (WriteFile (rt.Join [path; "memory.max"])
            (bytes_of (Itoa (MaxMem limits))))
     else mret tt) ;;
    (match MaxIO limits with
     | Some io =>
         wrap "write io limit: "
           (WriteFile (rt.Join [path; "io.max"]) (bytes_of (io_max_line io)))
     | None => mret tt
     end) ;;
    mret {| Path := path |}).

(** [AddProcess(path, pid)] *)
Definition AddProcess (path : string) (pid : Z) : M world unit :=
  wrap "open cgroup.procs: "
    (WriteFile (rt.Join [path; "cgroup.procs"]) (bytes_of (Itoa pid))).

End cgroupz.

(* ===================================================================== *)
(** * Package os/exec, as far as package jobs uses it *)
(* ===================================================================== *)

Module exec.
Import rt.

(** [exec.CommandContext(ctx, name, arg...)]: a new [Cmd] object; the
    result is the pointer to it. *)
Definition CommandContext (ctx : Ctx) (name : string) (arg : list string)
  : M world nat :=
  λ w, (set_cmds (λ cs, cs ++
          [{| Path := name; Args := name :: arg; cmd_ctx := ctx;
              Pdeathsig := 0; Process := None; ProcessState := None;
              finished := false |}]) w,
        Ok (length (cmds w))).

(** [c.SysProcAttr = &syscall.SysProcAttr{Pdeathsig: sig}] *)
Definition setPdeathsig (c : nat) (sig : Z) : M world unit :=
  modify (set_cmds (λ cs,
    match cs !! c with
    | Some cm =>
        <[c := {| Path := Path cm; Args := Args cm; cmd_ctx := cmd_ctx cm;
                  Pdeathsig := sig; Process := Process cm;
                  ProcessState := ProcessState cm; finished := finished cm |}]> cs
    | None => cs
    end)).

(** [c.StdoutPipe()] and [c.StderrPipe()] of a command that was not started
    and has no output set: the pipe is made, or the system refuses. *)
Definition Pipe (c : nat) : M world unit :=
  f ← fault;
  match f with
  | Some e => throw e
  | None => mret tt
  end.

(** [c.Start()]: on success [c.Process] is set.  The pid is the choice of
    the kernel; here it is the index of the command plus one. *)
Definition Start (c : nat) : M world unit :=
  w ← get;
  match cmds w !! c with
  | None => panic "nil pointer dereference"
  | Some cm =>
      if bool_decide (Process cm ≠ None) then throw "exec: already started"
      else if ctxDone (cancelled w) (cmd_ctx cm) then throw "context canceled"
      else
        f ← fault;
        match f with
        | Some e => modify (emit (EvSpawn c false)) ;; throw e
        | None =>
            modify (set_cmds (λ cs,
              <[c := {| Path := Path cm; Args := Args cm; cmd_ctx := cmd_ctx cm;
                        Pdeathsig := Pdeathsig cm;
                        Process := Some (Z.of_nat (S c));
                        ProcessState := ProcessState cm;
                        finished := finished cm |}]> cs)) ;;
            modify (emit (EvSpawn c true))
        end
  end.

(** How the child ended, as [c.Process.Wait()] reports it: an error of the
    system call, or the wait status. *)
Inductive reaped : Type :=
| ReapError (e : string)
| Reaped (ws : WaitStatus).

(** The error [c.Wait()] returns: [WaitErr] is an error that is not an
    [*exec.ExitError], [WaitExit] is nil or an [*exec.ExitError]. *)
Inductive wait_error : Type :=
| WaitErr (e : string)
| WaitExit.

(** [c.Wait()] *)
Definition Wait (c : nat) (r : reaped) : M world wait_error :=
  w ← get;
  match cmds w !! c with
  | None => panic "nil pointer dereference"
  | Some cm =>
      if bool_decide (Process cm = None) then mret (WaitErr "exec: not started")
      else if finished cm then mret (WaitErr "exec: Wait was already called")
      else
        let done (st : option WaitStatus) :=
          modify (set_cmds (λ cs,
            <[c := {| Path := Path cm; Args := Args cm; cmd_ctx := cmd_ctx cm;
                      Pdeathsig := Pdeathsig cm; Process := Process cm;
                      ProcessState := st; finished := true |}]> cs)) in
        match r with
        | ReapError e => done None ;; mret (WaitErr e)
        | Reaped ws => done (Some ws) ;; mret WaitExit
        end
  end.

End exec.

(* ===================================================================== *)
(** * Package jobs (pkg/jobs): the job supervisor *)
(* ===================================================================== *)

Module jobs.
Import rt.

Definition StatusUnknown : string := "unknown".
Definition StatusRunning : string := "running".
Definition StatusStopped : string := "stopped".
Definition StatusExited : string := "exited".

Definition cgroupMount : string := "/lib_cgroup".

(** An [io.Closer] of the [cleanup] list: the multireader (a pointer) or a
    cgroup controller. *)
Inductive closer : Type :=
| CloseLog (l : nat)
| CloseCgroup (c : cgroupz.CgroupController).

(** [type Job struct].  [cmd] is the pointer to the [exec.Cmd] ([None] for
    nil), [log] the multireader behind [getReaderFn] and [writeCloser],
    [goroutines] the length of that slice; the channel and the two pipes are
    read in [Wait], from what the child wrote. *)
Record Job : Type := mkJob {
  Err : string;
  Status : string;
  cmd : option nat;
  command : list string;
  ctx : Ctx;
  id : string;
  limits : cgroupz.ResourceLimit;
  log : nat;
  cleanup : list closer;
  goroutines : nat
}.

(** Code of a method with receiver [j *Job]. *)
Definition JM (A : Type) : Type := M (world * Job) A.

Definition inW {A} (c : M world A) : JM A :=
  zoom fst (λ s w, (w, s.2)) c.
Definition getJ : JM Job := λ s, (s, Ok s.2).
Definition getW : JM world := λ s, (s, Ok s.1).
Definition modJ (f : Job → Job) : JM unit := λ s, ((s.1, f s.2), Ok tt).

Definition set_Err (e : string) (j : Job) : Job :=
  {| Err := e; Status := Status j; cmd := cmd j; command := command j;
     ctx := ctx j; id := id j; limits := limits j; log := log j;
     cleanup := cleanup j; goroutines := goroutines j |}.
Definition set_Status (st : string) (j : Job) : Job :=
  {| Err := Err j; Status := st; cmd := cmd j; command := command j;
     ctx := ctx j; id := id j; limits := limits j; log := log j;
     cleanup := cleanup j; goroutines := goroutines j |}.
Definition set_cmd (c : option nat) (j : Job) : Job :=
  {| Err := Err j; Status := Status j; cmd := c; command := command j;
     ctx := ctx j; id := id j; limits := limits j; log := log j;
     cleanup := cleanup j; goroutines := goroutines j |}.
Definition set_cleanup (cl : list closer) (j : Job) : Job :=
  {| Err := Err j; Status := Status j; cmd := cmd j; command := command j;
     ctx := ctx j; id := id j; limits := limits j; log := log j;
     cleanup := cl; goroutines := goroutines j |}.
Definition set_goroutines (n : nat) (j : Job) : Job :=
  {| Err := Err j; Status := Status j; cmd := cmd j; command := command j;
     ctx := ctx j; id := id j; limits := limits j; log := log j;
     cleanup := cleanup j; goroutines := n |}.

(** [New]; [uuid] is the string [uuid.New().String()] draws. *)
Definition New (uuid : string) (ctx : Ctx) (command : list string)
    (limits : cgroupz.ResourceLimit) : M world Job :=
  λ w,
    let multireader := length (logs w) in
    (set_logs (λ ls, ls ++ [bufferz.NewMultiReaderBuffer]) w,
     Ok {| Err := ""; Status := StatusUnknown; cmd := None;
           command := command; ctx := ctx; id := uuid; limits := limits;
           log := multireader; cleanup := [CloseLog multireader];
           goroutines := 0 |}).

(** [closer.Close()] *)
Definition Close (c : closer) : M world unit :=
  match c with
  | CloseLog l =>
      w ← get;
      match logs w !! l with
      | None => panic "nil pointer dereference"
      | Some m =>
          match bufferz.Close m with
          | None => panic "close of closed channel"
          | Some (m', _) => modify (set_logs (λ ls, <[l := m']> ls))
          end
      end
  | CloseCgroup c => cgroupz.Close c
  end.

(** The loop of [j.close()]; the result is the errors that
    [multierr.Append] collects. *)
Fixpoint close_all (cs : list closer) : M world (list string) :=
  match cs with
  | [] => mret []
  | c :: cs' =>
      r ← try (Close c);
      errs ← close_all cs';
      mret (match r with inl _ => errs | inr e => e :: errs end)
  end.

Definition close : JM (list string) :=
  j ← getJ; inW (close_all (cleanup j)).

(** [j.start()] *)
Definition start : JM unit :=
  j ← getJ;
  cgroup ← wrap "cgroupz.New: " (inW (cgroupz.New (id j) cgroupMount (limits j)));
  modJ (λ j, set_cleanup (cleanup j ++ [CloseCgroup cgroup]) j) ;;
  c ← inW (exec.CommandContext (ctx j) "/home/vagrant/bin/utility/cmd"
             (cgroupz.Path cgroup :: command j));
  modJ (set_cmd (Some c)) ;;
  inW (exec.setPdeathsig c 9) ;;
  modJ (set_Status StatusRunning) ;;
  wrap "j.cmd.StdoutPipe: " (inW (exec.Pipe c)) ;;
  wrap "j.cmd.StderrPipe: " (inW (exec.Pipe c)) ;;
  wrap "j.cmd.Start: " (inW (exec.Start c)) ;;
  modJ (set_goroutines 2).

(** [j.cmd != nil && j.cmd.Process != nil] *)
Definition executed (w : world) (j : Job) : bool :=
  match cmd j with
  | None => false
  | Some c =>
      match cmds w !! c with
      | Some cm => bool_decide (Process cm ≠ None)
      | None => false   (* no pointer of the program is dangling *)
      end
  end.

(** [j.Start()] *)
Definition Start : JM unit :=
  j ← getJ; w ← getW;
  if executed w j then throw "process already executed"
  else
    r ← try start;
    match r with
    | inl _ => mret tt
    | inr err => try close ;; throw err
    end.

(** Calls of [Start] on one job, one after the other; before each call the
    outside changes the world by a function of [envs]. *)
Fixpoint Start_runs (envs : list (world → world)) (st : world * Job)
  : list (res unit) :=
  match envs with
  | [] => []
  | env :: rest =>
      let '(st', r) := Start (env st.1, st.2) in r :: Start_runs rest st'
  end.

(** What the child wrote while it ran: the chunks the reads of the stdout
    pipe return and the error that ends them ([None] for [io.EOF]), and the
    same for stderr. *)
Record child_io : Type := mkChildIO {
  stdout_chunks : list (list byte);
  stdout_err : option string;
  stderr_text : string;
  stderr_err : option string
}.

(** [io.Copy(j.writeCloser, j.stdout)]: each chunk read from the pipe is
    written to the multireader. *)
Fixpoint copy_to_log (l : nat) (chunks : list (list byte)) : M world unit :=
  match chunks with
  | [] => mret tt
  | p :: rest =>
      w ← get;
      match logs w !! l with
      | None => panic "nil pointer dereference"
      | Some m =>
          match bufferz.Write m p with
          | (m', (_, None)) =>
              modify (set_logs (λ ls, <[l := m']> ls)) ;; copy_to_log l rest
          | (_, (_, Some _)) => throw "multireader: close called"
          end
      end
  end.

(** [j.stdoutFn()] *)
Definition stdoutFn (io : child_io) : JM unit :=
  j ← getJ;
  wrap "stdout.Copy: "
    (inW (copy_to_log (log j) (stdout_chunks io) ;;
          match stdout_err io with Some e => throw e | None => mret tt end)) ;;
  wrap "wc.Close: " (inW (Close (CloseLog (log j)))).

(** [j.stderrFn()] *)
Definition stderrFn (io : child_io) : JM unit :=
  match stderr_err io with
  | Some e => throw ("stderr.Copy: " +:+ e)
  | None => modJ (set_Err (stderr_text io))
  end.

(** [defer c]: [c] runs when [body] returns or panics. *)
Definition defer {S A B} (c : M S B) (body : M S A) : M S A :=
  λ s, match body s with
       | (s', Block) => (s', Block)
       | (s', r) => (fst (c s'), r)
       end.

(** [j.Wait()].  The two pump goroutines have run to their ends when the
    receives from [j.errch] return; their work is done here, from [io], and
    [r] is what reaping the child gives. *)
Definition Wait (io : child_io) (r : exec.reaped) : JM unit :=
  defer close (
    j ← getJ;
    errs ← (if bool_decide (goroutines j = 0%nat) then mret []
            else
              e1 ← try (stdoutFn io);
              e2 ← try (stderrFn io);
              mret (match e1 with inl _ => [] | inr e => [e] end ++
                    match e2 with inl _ => [] | inr e => [e] end));
    match cmd j with
    | None => panic "nil pointer dereference"
    | Some c =>
        we ← inW (exec.Wait c r);
        match we with
        | exec.WaitErr e =>
            modJ (set_Status StatusUnknown) ;; throw ("j.cmd.Wait: " +:+ e)
        | exec.WaitExit =>
            w ← getW;
            match cmds w !! c ≫= ProcessState with
            | None => panic "nil pointer dereference"
            | Some waitStatus =>
                modJ (set_Status
                        (if Signaled waitStatus then StatusStopped
                         else if Exited waitStatus then StatusExited
                         else StatusUnknown)) ;;
                match errs with
                | [] => mret tt
                | _ => throw ("error from goroutine: " +:+ join_slash errs)
                end
            end
        end
    end).

(** [j.Result()] *)
Definition Result (w : world) (j : Job) : Z * string :=
  match cmd j with
  | None => (-1, StatusUnknown)
  | Some c =>
      match cmds w !! c ≫= ProcessState with
      | None => (-1, StatusUnknown)
      | Some st => (ExitCode st, Status j)
      end
  end.

(** The loop of [io.Copy(writer, reader)] for a reader of the multireader
    [l]: it reads with a buffer of 32 KiB.  [fuel] bounds the number of
    passes; a loop that has made more passes than the log has bytes makes no
    progress and never returns. *)
Fixpoint copy_from_log (fuel : nat) (writer : list byte → M world nat)
    (l : nat) (ctx : Ctx) (pick : bool) (r : bufferz.Reader) : M world unit :=
  match fuel with
  | O => block
  | S fuel' =>
      w ← get;
      match logs w !! l with
      | None => panic "nil pointer dereference"
      | Some m =>
          match bufferz.Read m r (32 * 1024) (ctxDone (cancelled w) ctx) pick with
          | bufferz.Blocks => block
          | bufferz.Returns r' bs er =>
              (match bs with
               | [] => mret tt
               | _ =>
                   nw ← writer bs;
                   if bool_decide (nw = length bs) then mret tt
                   else throw "short write"
               end) ;;
              match er with
              | Some bufferz.EOF => mret tt
              | Some _ => throw "context canceled"
              | None => copy_from_log fuel' writer l ctx pick r'
              end
          end
      end
  end.

(** [j.Stream(ctx, writer)] *)
Definition Stream (ctx : Ctx) (pick : bool) (writer : list byte → M world nat)
  : JM unit :=
  j ← getJ; w ← getW;
  wrap "io.Copy: "
    (inW (copy_from_log
            (S (length (default [] (bufferz.data <$> logs w !! log j))))
            writer (log j) ctx pick bufferz.GetReader)).

End jobs.

(* ===================================================================== *)
(** * Package authorizer *)
(* ===================================================================== *)

Module authorizer.

Definition ActionStart : string := "start".
Definition ActionGet : string := "get".
Definition ActionStop : string := "stop".
Definition ActionStream : string := "stream".

Record Role : Type := mkRole {
  Name : string;
  Actions : list string
}.

Record User : Type := mkUser {
  Subject : string;
  Roles : list Role
}.

Record Authorizer : Type := mkAuthorizer {
  Users : gmap string User
}.

Definition adminRole : Role :=
  {| Name := "admin";
     Actions := [ActionGet; ActionStart; ActionStop; ActionStream] |}.

Definition viewerRole : Role :=
  {| Name := "viewer"; Actions := [ActionGet; ActionStream] |}.

Definition alice : User := {| Subject := "alice"; Roles := [adminRole] |}.
Definition victor : User := {| Subject := "victor"; Roles := [viewerRole] |}.

Definition NewAuthorizer : Authorizer :=
  {| Users := <[Subject victor := victor]> (<[Subject alice := alice]> ∅) |}.

(** The inner loop of [HasAccess], over the actions of one role. *)
Fixpoint action_allowed (action : string) (actions : list string) : bool :=
  match actions with
  | [] => false
  | allowedActions :: rest =>
      if bool_decide (action = allowedActions) then true
      else action_allowed action rest
  end.

(** The outer loop, over the roles of the user. *)
Fixpoint roles_allow (action : string) (roles : list Role) : bool :=
  match roles with
  | [] => false
  | role :: rest =>
      if action_allowed action (Actions role) then true
      else roles_allow action rest
  end.

(** [HasAccess]: the boolean and the error. *)
Definition HasAccess (a : Authorizer) (subject action : string)
  : bool * option string :=
  match Users a !! subject with
  | None => (false, Some ("subject " +:+ subject +:+ " not found"))
  | Some user => (roles_allow action (Roles user), None)
  end.

End authorizer.

(* ===================================================================== *)
(** * Package jobs (lib/jobs): the registry [Service] *)
(* ===================================================================== *)

Module service.
Import rt.

(** [type JobRecord struct]: [Job] is a [jobs.Job] value, not a pointer;
    [cancel] is the cancel function of [ctx]. *)
Record JobRecord : Type := mkJobRecord {
  ID : Z;
  Job : jobs.Job;
  ctx : Ctx
}.

(** A goroutine that [StartJob] has started: the id and the variable [job]
    that its closure has captured, and whether [job.Wait()] has returned. *)
Record waiter : Type := mkWaiter {
  w_id : Z;
  w_job : jobs.Job;
  w_done : bool
}.

(** [type Service struct]: [ider_id] is the counter of the embedded
    [ider], [locked] the embedded mutex, [wg] the counter of the wait
    group. *)
Record Service : Type := mkService {
  ider_id : Z;
  locked : bool;
  store : gmap Z JobRecord;
  wg : nat;
  parentCtx : Ctx;
  waiters : list waiter
}.

Definition SM (A : Type) : Type := M (world * Service) A.

Definition inW {A} (c : M world A) : SM A :=
  zoom fst (λ s w, (w, s.2)) c.
Definition getS : SM Service := λ s, (s, Ok s.2).
Definition getW : SM world := λ s, (s, Ok s.1).
Definition modS (f : Service → Service) : SM unit := λ s, ((s.1, f s.2), Ok tt).

(** A method of a [Job] variable run from code of the service: the result
    is the variable afterwards and how the method ended. *)
Definition onJob {A} (job : jobs.Job) (c : jobs.JM A)
  : SM (jobs.Job * (A + string)) :=
  λ s, match c (s.1, job) with
       | ((w', job'), Ok a) => ((w', s.2), Ok (job', inl a))
       | ((w', job'), rt.Err e) => ((w', s.2), Ok (job', inr e))
       | ((w', job'), Panic msg) => ((w', s.2), Panic msg)
       | ((w', job'), Block) => ((w', s.2), Block)
       end.

Definition set_ider_id (z : Z) (s : Service) : Service :=
  {| ider_id := z; locked := locked s; store := store s; wg := wg s;
     parentCtx := parentCtx s; waiters := waiters s |}.
Definition set_locked (b : bool) (s : Service) : Service :=
  {| ider_id := ider_id s; locked := b; store := store s; wg := wg s;
     parentCtx := parentCtx s; waiters := waiters s |}.
Definition set_store (m : gmap Z JobRecord) (s : Service) : Service :=
  {| ider_id := ider_id s; locked := locked s; store := m; wg := wg s;
     parentCtx := parentCtx s; waiters := waiters s |}.
Definition set_wg (n : nat) (s : Service) : Service :=
  {| ider_id := ider_id s; locked := locked s; store := store s; wg := n;
     parentCtx := parentCtx s; waiters := waiters s |}.
Definition set_waiters (ws : list waiter) (s : Service) : Service :=
  {| ider_id := ider_id s; locked := locked s; store := store s; wg := wg s;
     parentCtx := parentCtx s; waiters := ws |}.

(** [NewService(ctx)] *)
Definition NewService (ctx : Ctx) : M world Service :=
  parentCtx ← newContext ctx;
  mret {| ider_id := 0; locked := false; store := ∅; wg := 0;
          parentCtx := parentCtx; waiters := [] |}.

(** The value of an [int32] after an addition: the sum, wrapped around. *)
Definition wrap32 (z : Z) : Z := (z + 2 ^ 31) `mod` 2 ^ 32 - 2 ^ 31.

(** [ider.nextID]: [atomic.AddInt32(&i.id, 1)] *)
Definition nextID : SM Z :=
  s ← getS;
  let id := wrap32 (ider_id s + 1) in
  modS (set_ider_id id) ;; mret id.

(** [s.Lock()] never returns when the mutex is held and nobody is left to
    release it. *)
Definition Lock : SM unit :=
  s ← getS;
  if locked s then block else modS (set_locked true).

Definition Unlock : SM unit := modS (set_locked false).

(** [StartJob]; [uuid] is the string [uuid.New()] draws in [jobs.New]. *)
Definition StartJob (uuid : string) (ctx : Ctx) (cmdStr : list string)
    (limits : cgroupz.ResourceLimit) : SM JobRecord :=
  jobCtx ← inW (newContext ctx);
  job ← inW (jobs.New uuid jobCtx cmdStr limits);
  id ← nextID;
  let record := {| ID := id; Job := job; ctx := jobCtx |} in
  Lock ;;
  s ← getS;
  match store s !! id with
  | Some _ => throw ("id " +:+ Itoa id +:+ " already exists")
  | None =>
      modS (λ s, set_store (<[id := record]> (store s)) s) ;;
      Unlock ;;
      started ← onJob job jobs.Start;
      match started with
      | (_, inr err) => throw err
      | (job, inl _) =>
          modS (λ s, set_wg (S (wg s)) s) ;;
          modS (λ s, set_waiters
                  (waiters s ++ [{| w_id := id; w_job := job; w_done := false |}]) s) ;;
          mret record
      end
  end.

(** The goroutine of [StartJob], once the child [k] is gone: [job.Wait()],
    the print of its error, and the deferred [s.wg.Done()]. *)
Definition waiter_run (k : nat) (io : jobs.child_io) (r : exec.reaped) : SM unit :=
  s ← getS;
  match waiters s !! k with
  | None => block
  | Some g =>
      if w_done g then block
      else
        waited ← onJob (w_job g) (jobs.Wait io r);
        (match waited with
         | (_, inr err) =>
             inW (Printf ("error executing job with id " +:+ Itoa (w_id g) +:+
                          ": " +:+ err +:+ nl))
         | (_, inl _) => mret tt
         end) ;;
        modS (λ s, set_waiters
                (<[k := {| w_id := w_id g; w_job := waited.1; w_done := true |}]>
                   (waiters s)) s) ;;
        modS (λ s, set_wg (pred (wg s)) s)
  end.

(** [GetJob] *)
Definition GetJob (ctx : Ctx) (jobID : Z) : SM JobRecord :=
  Lock ;;
  s ← getS;
  match store s !! jobID with
  | None => Unlock ;; throw "job not found"
  | Some job => Unlock ;; mret job
  end.

(** [StopJob].  [pick] tells which case of the [select] runs when both
    channels are ready. *)
Definition StopJob (ctx : Ctx) (jobID : Z) (pick : bool) : SM (Z * string) :=
  Lock ;;
  s ← getS;
  match store s !! jobID with
  | None => Unlock ;; throw "job not found"
  | Some job =>
      inW (cancel (service.ctx job)) ;;
      Unlock ;;
      w ← getW;
      let result := mret (jobs.Result w (Job job)) in
      let cancelled := throw "context canceled" in
      match ctxDone (rt.cancelled w) (service.ctx job),
            ctxDone (rt.cancelled w) ctx with
      | true, true => if pick then result else cancelled
      | true, false => result
      | false, true => cancelled
      | false, false => block
      end
  end.

(** [StreamJob] *)
Definition StreamJob (ctx : Ctx) (jobID : Z) (pick : bool)
    (writer : list byte → M world nat) : SM unit :=
  job ← wrap "getJob: " (GetJob ctx jobID);
  streamed ← onJob (Job job) (jobs.Stream ctx pick writer);
  match streamed with
  | (_, inr err) => throw ("job.Stream: " +:+ err)
  | (_, inl _) => mret tt
  end.

(** [Shutdown]: [s.wg.Wait()] returns once every goroutine is done. *)
Definition Shutdown : SM unit :=
  s ← getS;
  inW (cancel (parentCtx s)) ;;
  if bool_decide (wg s = 0%nat) then mret tt else block.

(** ** Runs of a service *)

(** What can happen to a service: the four calls of the library, a
    goroutine of [StartJob] coming to its end, [Shutdown], and from the
    outside the cancellation of a context and the choice of the system calls
    that will be refused. *)
Inductive op : Type :=
| OpStart (uuid : string) (ctx : Ctx) (cmdStr : list string)
    (limits : cgroupz.ResourceLimit)
| OpGet (ctx : Ctx) (jobID : Z)
| OpStop (ctx : Ctx) (jobID : Z) (pick : bool)
| OpStream (ctx : Ctx) (jobID : Z) (pick : bool)
    (writer : list byte → M world nat)
| OpWaiter (k : nat) (io : jobs.child_io) (r : exec.reaped)
| OpShutdown
| OpCancel (ctx : Ctx)
| OpFaults (fs : list (option string)).

(** The state after the operation and, for a [StartJob] that returned a
    record, the id of the record. *)
Definition apply_op (o : op) (st : world * Service)
  : (world * Service) * option Z :=
  match o with
  | OpStart uuid ctx cmdStr limits =>
      match StartJob uuid ctx cmdStr limits st with
      | (st', Ok record) => (st', Some (ID record))
      | (st', _) => (st', None)
      end
  | OpGet ctx jobID => ((GetJob ctx jobID st).1, None)
  | OpStop ctx jobID pick => ((StopJob ctx jobID pick st).1, None)
  | OpStream ctx jobID pick writer =>
      ((StreamJob ctx jobID pick writer st).1, None)
  | OpWaiter k io r => ((waiter_run k io r st).1, None)
  | OpShutdown => ((Shutdown st).1, None)
  | OpCancel ctx => ((inW (cancel ctx) st).1, None)
  | OpFaults fs => ((set_faults fs st.1, st.2), None)
  end.

(** The run of a list of operations; [ids] collects the ids the
    successful [StartJob] calls return, in the order of the calls. *)
Fixpoint run (ops : list op) (st : world * Service) (ids : list Z)
  : (world * Service) * list Z :=
  match ops with
  | [] => (st, ids)
  | o :: ops' =>
      let '(st', r) := apply_op o st in
      run ops' st' (ids ++ match r with Some i => [i] | None => [] end)
  end.

(** The number of [StartJob] calls in a run. *)
Fixpoint starts (ops : list op) : nat :=
  match ops with
  | [] => 0
  | OpStart _ _ _ _ :: ops' => S (starts ops')
  | _ :: ops' => starts ops'
  end.

End service.

(* ===================================================================== *)
(** * Package jobs (lib/jobs): the gRPC adapter [Jobs] *)
(* ===================================================================== *)

Module api.
Import rt service.

(** [codes.Code] of package grpc *)
Inductive Code : Type :=
| OK | Canceled | Unknown | InvalidArgument | DeadlineExceeded | NotFound
| AlreadyExists | PermissionDenied | ResourceExhausted | FailedPrecondition
| Aborted | OutOfRange | Unimplemented | Internal | Unavailable | DataLoss
| Unauthenticated.

#[global] Instance Code_eq_dec : EqDecision Code.
Proof. solve_decision. Defined.

(** The error a handler returns: one made by [status.Error(code, msg)], or
    the plain error of the library handed on as it is. *)
Inductive rpc_error : Type :=
| StatusError (c : Code) (msg : string)
| PlainError (msg : string).

(** The messages of the proto file. *)
Record proto_Job : Type := mkProtoJob {
  Id : Z;
  Cmd : list string;
  Status : string
}.
Record GetRequest : Type := mkGetRequest { get_id : Z }.
Record StartRequest : Type := mkStartRequest {
  cmd : list string;
  cpu_weight : Z;
  max_mem_use : Z;
  max_disk_io : Z
}.
Record StopRequest : Type := mkStopRequest { stop_id : Z }.
Record StopResponse : Type := mkStopResponse {
  ExitCode : Z;
  stop_Status : string
}.
Record StreamRequest : Type := mkStreamRequest { stream_id : Z }.

(** The context of a call: the values under the key [authn_id] of the
    incoming metadata ([None]: there is no metadata), and the cancellation
    context. *)
Record Context : Type := mkContext {
  authn_id : option (list string);
  ctx : Ctx
}.

(** [authn.FromMD]: [None] is [ErrMissingID]. *)
Definition FromMD (c : Context) : option string :=
  match authn_id c with
  | Some [id] => Some id
  | _ => None
  end.

(** [type Jobs struct]; [lib] is the [Service] of the state. *)
Record Jobs : Type := mkJobs {
  authz : option authorizer.Authorizer
}.

(** [NewJobs] leaves the field [authz] nil. *)
Definition NewJobs : Jobs := {| authz := None |}.

(** [j.authz.HasAccess(subject, action)] *)
Definition HasAccess (j : Jobs) (subject action : string)
  : SM (bool * option string) :=
  match authz j with
  | None => panic "nil pointer dereference"
  | Some a => mret (authorizer.HasAccess a subject action)
  end.

Definition Get (j : Jobs) (c : Context) (req : GetRequest)
  : SM (proto_Job + rpc_error) :=
  match FromMD c with
  | None => mret (inr (StatusError Unauthenticated "missing id"))
  | Some userID =>
      access ← HasAccess j userID authorizer.ActionGet;
      match access with
      | (_, Some _) => mret (inr (StatusError Unknown ""))
      | (false, None) => mret (inr (StatusError Unauthenticated "unauthenticated"))
      | (true, None) =>
          got ← try (GetJob (ctx c) (get_id req));
          match got with
          | inr err => mret (inr (PlainError err))
          | inl cmd =>
              mret (inl {| Id := ID cmd; Cmd := [];
                           Status := jobs.Status (Job cmd) |})
          end
      end
  end.

(** [Start]; [uuid] is the string [uuid.New()] draws in [jobs.New]. *)
Definition Start (uuid : string) (j : Jobs) (c : Context) (req : StartRequest)
  : SM (proto_Job + rpc_error) :=
  inW (Println "Starting..") ;;
  match FromMD c with
  | None => mret (inr (StatusError Unauthenticated "missing id"))
  | Some userID =>
      access ← HasAccess j userID authorizer.ActionStart;
      match access with
      | (_, Some _) => mret (inr (StatusError Unknown ""))
      | (false, None) => mret (inr (StatusError Unauthenticated "unauthenticated"))
      | (true, None) =>
          let cmd := cmd req in
          started ← try (StartJob uuid (ctx c) cmd
                           {| cgroupz.CpuWeight := 100;
                              cgroupz.MaxMem := 100000000;
                              cgroupz.MaxIO := None |});
          match started with
          | inr err => mret (inr (PlainError err))
          | inl job => mret (inl {| Id := ID job; Cmd := cmd; Status := "" |})
          end
      end
  end.

Definition Stop (j : Jobs) (c : Context) (req : StopRequest) (pick : bool)
  : SM (StopResponse + rpc_error) :=
  inW (Println "Stopping..") ;;
  match FromMD c with
  | None => mret (inr (StatusError Unauthenticated "missing id"))
  | Some userID =>
      access ← HasAccess j userID authorizer.ActionStop;
      match access with
      | (_, Some _) => mret (inr (StatusError Unknown ""))
      | (false, None) => mret (inr (StatusError Unauthenticated "unauthenticated"))
      | (true, None) =>
          stopped ← try (StopJob (ctx c) (stop_id req) pick);
          match stopped with
          | inr err => mret (inr (PlainError err))
          | inl (exitCode, jobStatus) =>
              mret (inl {| ExitCode := wrap32 exitCode;
                           stop_Status := jobStatus |})
          end
      end
  end.

(** [streamWriter.Write] *)
Definition streamWriter (c : Ctx) (p : list byte) : M world nat :=
  done ← Done c;
  if done : bool then throw "context canceled"
  else
    f ← fault;
    match f with
    | Some e => modify (emit (EvSend p false)) ;; throw e
    | None => modify (emit (EvSend p true)) ;; mret (length p)
    end.

(** [Stream]; the context of the call is [server.Context()]. *)
Definition Stream (j : Jobs) (c : Context) (req : StreamRequest) (pick : bool)
  : SM (unit + rpc_error) :=
  match FromMD c with
  | None => mret (inr (StatusError Unauthenticated "missing id"))
  | Some userID =>
      access ← HasAccess j userID authorizer.ActionStream;
      match access with
      | (_, Some _) => mret (inr (StatusError Unknown ""))
      | (false, None) => mret (inr (StatusError Unauthenticated "unauthenticated"))
      | (true, None) =>
          inW (Println "Streaming..") ;;
          streamed ← try (StreamJob (ctx c) (stream_id req) pick
                            (streamWriter (ctx c)));
          match streamed with
          | inr err => mret (inr (PlainError err))
          | inl _ => mret (inl tt)
          end
      end
  end.

End api.

(* ===================================================================== *)
(** * Properties of package bufferz *)
(* ===================================================================== *)

Module bufferz_facts.
Import bufferz.

(** What a reader has seen is the log up to its cursor. *)
Definition reader_ok (m : MultiReader) (r : reader_state) : Prop :=
  r_seen r = take (r_pos r) (data m) ∧ (r_pos r ≤ length (data m))%nat.

Definition inv (s : system) : Prop := Forall (reader_ok (log s)) (readers s).

Lemma reader_ok_data m m' r :
  (∃ p, data m' = data m ++ p) → reader_ok m r → reader_ok m' r.
Proof.
  intros [p Hp] [Hseen Hle]. unfold reader_ok. rewrite Hp. split.
  - rewrite take_app_le by done. done.
  - rewrite length_app. lia.
Qed.

Lemma reader_ok_same m r r' :
  r_seen r' = r_seen r → r_pos r' = r_pos r → reader_ok m r → reader_ok m r'.
Proof. unfold reader_ok. intros -> ->. done. Qed.

Lemma reader_ok_wake m r : reader_ok m r → reader_ok m (wake r).
Proof. apply reader_ok_same; unfold wake; by destruct (r_pc r). Qed.

Lemma inv_Broadcast m rs :
  Forall (reader_ok m) rs → Forall (reader_ok m) (Broadcast rs).
Proof.
  intros H. unfold Broadcast. apply Forall_fmap.
  eapply Forall_impl; [exact H|]. intros r Hr. by apply reader_ok_wake.
Qed.

Lemma inv_insert_same m rs i r r' :
  Forall (reader_ok m) rs → rs !! i = Some r →
  r_seen r' = r_seen r → r_pos r' = r_pos r →
  Forall (reader_ok m) (<[i := r']> rs).
Proof.
  intros H Hi Hs Hp. apply Forall_insert; [done|].
  eapply reader_ok_same; [done..|]. by eapply Forall_lookup_1.
Qed.

(** The bytes a call copies continue the prefix the reader already has. *)
Lemma after_loop_ok m pos0 n seen pos' bs err :
  seen = take pos0 (data m) → (pos0 ≤ length (data m))%nat →
  after_loop m pos0 n = (pos', bs, err) →
  seen ++ bs = take pos' (data m) ∧ (pos' ≤ length (data m))%nat.
Proof.
  intros Hseen Hle Hal. unfold after_loop, copy_out in Hal.
  injection Hal as <- <- _. subst seen.
  destruct (pos0 <? length (data m))%nat eqn:Hlt.
  - split; [|rewrite length_take, length_drop; lia].
    rewrite <- take_take_drop. f_equal.
    rewrite length_take, <- take_take. by rewrite firstn_all.
  - simpl. rewrite Nat.add_0_r, app_nil_r. done.
Qed.

Lemma step_inv s l s' : inv s → step s l = Some s' → inv s'.
Proof.
  unfold inv. intros Hinv Hstep.
  destruct l; simpl in Hstep; simplify_option_eq; simpl; try done;
    repeat (match goal with
            | H : match ?x with _ => _ end = Some _ |- _ =>
                destruct x eqn:?; simplify_option_eq; simpl
            end);
    try done;
    try (apply inv_Broadcast);
    try (eapply inv_insert_same; by eauto);
    try (eapply Forall_impl; [exact Hinv|];
         intros ? ?; eapply reader_ok_data; [|done];
         simpl; by eauto using app_nil_r).
  - apply Forall_app. split; [done|]. apply Forall_singleton.
    split; simpl; [by rewrite take_0 | lia].
  - unfold close_chan in *. case_match; simplify_eq. done.
  - apply Forall_insert; [done|].
    match goal with H : readers s !! _ = Some ?r |- _ =>
      pose proof (Forall_lookup_1 _ _ _ _ Hinv H) as [Hs Hp] end.
    eapply after_loop_ok; eauto.
Qed.

Lemma run_inv ls : ∀ s s', inv s → run s ls = Some s' → inv s'.
Proof.
  induction ls as [|l ls IH]; simpl; intros s s' Hinv Hrun.
  - by simplify_eq.
  - destruct (step s l) as [s1|] eqn:Hstep; simpl in Hrun; [|done].
    eapply IH; [|done]. by eapply step_inv.
Qed.

Lemma reachable_inv s : reachable s → inv s.
Proof.
  intros [ls Hrun]. eapply run_inv; [|done]. unfold inv. simpl. constructor.
Qed.

Lemma take_prefix_le {A} (l : list A) (i j : nat) :
  (i ≤ j)%nat → take i l `prefix_of` take j l.
Proof.
  intros Hij. exists (drop i (take j l)).
  rewrite <- (take_drop i (take j l)) at 1. f_equal.
  rewrite take_take. f_equal. lia.
Qed.

(** C1.  In every state that an interleaving of Write, Close, GetReader,
    Read and cancellation steps reaches from a fresh log, what a reader has
    observed is exactly the first [r_pos] bytes of the log, and of two
    readers the one that has observed no more bytes than the other has
    observed a prefix of what the other has. *)
Theorem prefix_property (s : system) (i j : nat) (r1 r2 : reader_state) :
  reachable s →
  readers s !! i = Some r1 →
  readers s !! j = Some r2 →
  r_seen r1 = take (r_pos r1) (data (log s)) ∧
  ((length (r_seen r1) ≤ length (r_seen r2))%nat →
   r_seen r1 `prefix_of` r_seen r2).
Proof.
  intros Hreach H1 H2. apply reachable_inv in Hreach.
  destruct (Forall_lookup_1 _ _ _ _ Hreach H1) as [Hs1 Hp1].
  destruct (Forall_lookup_1 _ _ _ _ Hreach H2) as [Hs2 Hp2].
  split; [done|]. rewrite Hs1, Hs2, !length_take. intros Hlen.
  apply take_prefix_le. lia.
Qed.

(** A schedule with two readers: the writer appends "foo." and "bar",
    reader 0 reads with a buffer of three bytes between the two writes,
    reader 1 is created late, reads all there is, waits inside a second
    call, is woken by [Close] and gets [EOF]. *)
Definition demo_schedule : list label :=
  [ LGetReader;
    LWriteCall (bytes_of "foo."); LWriteAppend; LWriteBroadcast;
    LReadCall 0 3; LReadIter 0 false; LReadCopy 0;
    LWriteCall (bytes_of "bar"); LWriteAppend;
    LGetReader;
    LReadCall 1 64; LReadIter 1 false; LReadCopy 1;
    LReadCall 1 64; LReadIter 1 false;
    LWriteBroadcast;
    LCloseCall; LCloseStore 0; LCloseChan 0;
    LReadWake 1; LReadIter 1 false; LReadCopy 1 ].

Definition demo_state : system :=
  Eval vm_compute in default init (run init demo_schedule).

Definition demo_reader (pos : nat) (seen : string) (ret : nat) (e : option error)
  : reader_state :=
  {| r_pos := pos; r_done := false; r_watcher := true; r_pc := RIdle;
     r_seen := bytes_of seen; r_ret := Some (ret, e) |}.

Lemma prefix_property_witness :
  bytes_of "foo" = take 3 (bytes_of "foo.bar") ∧
  bytes_of "foo" `prefix_of` bytes_of "foo.bar".
Proof.
  destruct (prefix_property demo_state 0 1
              (demo_reader 3 "foo" 3 None) (demo_reader 7 "foo.bar" 0 (Some EOF)))
    as [H1 H2].
  - exists demo_schedule. vm_compute. reflexivity.
  - vm_compute. reflexivity.
  - vm_compute. reflexivity.
  - split; [exact H1|]. apply H2. vm_compute. lia.
Defined.

(** ** Reading a closed log to its end *)

Lemma writes_open ps : ∀ m,
  closeCalled m = false →
  writes m ps =
    {| data := data m ++ concat ps; closeChan := closeChan m; closed := closed m |}.
Proof.
  induction ps as [|p ps IH]; intros m Hopen; simpl.
  - rewrite app_nil_r. by destruct m.
  - unfold Write. rewrite Hopen. simpl. rewrite IH by done. simpl.
    by rewrite <- app_assoc.
Qed.

Lemma read_all_closed bufs : ∀ m r,
  closeCalled m = true → closeChan m = true →
  (pos r ≤ length (data m))%nat →
  Forall (λ n, 0 < n)%nat bufs →
  (length (data m) - pos r < sum_list bufs)%nat →
  read_all m r bufs = Some (drop (pos r) (data m), EOF).
Proof.
  induction bufs as [|n bufs IH]; intros m [p0] Hcl Hch Hpos Hbufs Hlen;
    simpl in *; [lia|].
  apply Forall_cons in Hbufs as [Hn Hbufs].
  unfold Read, loop_iter, after_loop, copy_out. simpl. rewrite Hch, Hcl. simpl.
  destruct (p0 <? length (data m))%nat eqn:Hlt.
  - apply Nat.ltb_lt in Hlt. rewrite length_take, length_drop.
    destruct (p0 + n `min` (length (data m) - p0) =? length (data m))%nat eqn:Hend.
    + apply Nat.eqb_eq in Hend. rewrite take_ge; [done|]. rewrite length_drop. lia.
    + apply Nat.eqb_neq in Hend.
      rewrite (IH m) by (simpl; first [done | lia]). simpl.
      rewrite Nat.min_l by lia.
      rewrite <- (take_drop n (drop p0 (data m))) at 2.
      by rewrite drop_drop.
  - apply Nat.ltb_ge in Hlt. simpl. rewrite Nat.add_0_r.
    replace p0 with (length (data m)) by lia.
    rewrite Nat.eqb_refl. by rewrite drop_all.
Qed.

(** C2.  Write the chunks [ps] to a fresh log and close it: [Close] returns
    without error, and a reader obtained from [GetReader] whose context is
    never cancelled, called until it reports an error with non-empty
    buffers (whose lengths add up to more than the log), delivers exactly
    the bytes written, in order, and then [EOF].  The reader is the same
    whenever [GetReader] is called, before or after [Close]: it only sets
    [pos = 0]; and a reader that has already read up to some cursor
    delivers the rest of the log and then [EOF]. *)
Theorem close_then_read_all (ps : list (list byte)) (bufs : list nat) :
  Forall (λ n, 0 < n)%nat bufs →
  (length (concat ps) < sum_list bufs)%nat →
  ∃ m, Close (writes NewMultiReaderBuffer ps) = Some (m, None) ∧
       data m = concat ps ∧
       read_all m GetReader bufs = Some (concat ps, EOF) ∧
       ∀ r, (pos r ≤ length (concat ps))%nat →
            read_all m r bufs = Some (drop (pos r) (concat ps), EOF).
Proof.
  intros Hbufs Hlen. rewrite writes_open by done. simpl.
  eexists. split; [reflexivity|]. split; [done|]. split.
  - rewrite read_all_closed; simpl; rewrite ?drop_0; first [done | lia].
  - intros r Hr. rewrite read_all_closed; simpl; first [done | lia].
Qed.

Lemma close_then_read_all_witness :
  ∃ m, Close (writes NewMultiReaderBuffer
                [bytes_of "foo."; bytes_of "bar.baz"])
       = Some (m, None) ∧
       data m = bytes_of "foo.bar.baz" ∧
       read_all m GetReader [4; 4; 512; 512]%nat
       = Some (bytes_of "foo.bar.baz", EOF) ∧
       ∀ r, (pos r ≤ length (concat [bytes_of "foo."; bytes_of "bar.baz"]))%nat →
            read_all m r [4; 4; 512; 512]%nat
            = Some (drop (pos r) (concat [bytes_of "foo."; bytes_of "bar.baz"]), EOF).
Proof.
  apply (close_then_read_all
           [bytes_of "foo."; bytes_of "bar.baz"]
           [4; 4; 512; 512]%nat).
  - repeat (constructor; [lia|]). constructor.
  - vm_compute. lia.
Defined.

(** C7.  Once [Close] has returned, [Write] returns the error and zero
    bytes and leaves the log as it is, so that every reader call sees what it
    would have seen without the [Write]; and another [Close] returns [nil]
    and leaves the log as it is. *)
Theorem write_after_close (m m1 : MultiReader) (e : option error) (p : list byte) :
  Close m = Some (m1, e) →
  e = None ∧
  Write m1 p = (m1, (0%nat, Some ErrCloseCalled)) ∧
  data (fst (Write m1 p)) = data m1 ∧
  (∀ r n done pick, Read (fst (Write m1 p)) r n done pick = Read m1 r n done pick) ∧
  Close m1 = Some (m1, None).
Proof.
  intros Hclose.
  assert (e = None ∧ closeCalled m1 = true) as [-> Hcl].
  { unfold Close in Hclose. destruct (closeCalled m) eqn:Hm.
    - by simplify_eq.
    - unfold close_chan in Hclose. simpl in Hclose.
      destruct (closeChan m); simplify_option_eq. done. }
  unfold Write, Close. rewrite Hcl. done.
Qed.

(** The same in the concurrent system: once the store of [closed] by some
    [Close] has happened, a [Write] that is called returns the error at its
    first step and the log stays as it is. *)
Lemma write_call_after_store (s s' : system) (p : list byte) :
  closeCalled (log s) = true →
  step s (LWriteCall p) = Some s' →
  log s' = log s ∧ writer s' = WIdle ∧
  w_ret s' = Some (0%nat, Some ErrCloseCalled).
Proof.
  intros Hcl. simpl. destruct (writer s); [|done..].
  rewrite Hcl. by intros [= <-].
Qed.

Lemma write_after_close_witness :
  Write (mkMultiReader (bytes_of "foo") true 1) (bytes_of "bar")
  = (mkMultiReader (bytes_of "foo") true 1, (0%nat, Some ErrCloseCalled)).
Proof.
  apply (write_after_close
           (mkMultiReader (bytes_of "foo") false 0)
           (mkMultiReader (bytes_of "foo") true 1) None
           (bytes_of "bar")).
  reflexivity.
Defined.

(** ** What a call of the reader can do *)

(** One call of the reader with a buffer of [n] bytes.  It stays in
    [cond.Wait()] exactly when its context is live, the channel is open and
    there is nothing beyond its cursor.  With a cancelled context and an open
    channel it returns [ctx.Err()] and no bytes, and the cursor stays.  In
    every other return it hands out the next bytes of the log, at most [n],
    moves the cursor by their number and never beyond the end, reports
    [io.EOF] exactly when [Close] was called and the cursor has reached the
    end, and gives at least one byte when the buffer has room and the log
    has more. *)
Theorem Read_outcomes (m : MultiReader) (r : Reader) (n : nat) (cancelled pick : bool) :
  (Read m r n cancelled pick = Blocks ↔
   cancelled = false ∧ closeChan m = false ∧ (length (data m) ≤ pos r)%nat) ∧
  (cancelled = true → closeChan m = false →
   Read m r n cancelled pick = Returns r [] (Some CtxErr)) ∧
  (∀ r' bs err, Read m r n cancelled pick = Returns r' bs err → err ≠ Some CtxErr →
   bs = take n (drop (pos r) (data m)) ∧
   (length bs ≤ n)%nat ∧
   pos r' = (pos r + length bs)%nat ∧
   ((pos r ≤ length (data m))%nat → (pos r' ≤ length (data m))%nat) ∧
   (err = Some EOF ↔ closeCalled m = true ∧ pos r' = length (data m)) ∧
   ((0 < n)%nat → (pos r < length (data m))%nat → bs ≠ [])).
Proof.
  destruct r as [p]. unfold Read, loop_iter, after_loop, copy_out. simpl.
  split; [|split].
  - destruct cancelled, (closeChan m), pick; simpl;
      destruct (p <? length (data m))%nat eqn:Hlt; simpl;
      try (split; [discriminate | intros (? & ? & ?); try discriminate]);
      try (apply Nat.ltb_lt in Hlt; lia);
      try (apply Nat.ltb_ge in Hlt; done).
  - intros -> ->. done.
  - intros r' bs err Hret Herr.
    assert (Returns
              {| pos := p + length (if (p <? length (data m))%nat
                                    then take n (drop p (data m)) else []) |}
              (if (p <? length (data m))%nat then take n (drop p (data m)) else [])
              (if closeCalled m &&
                  (p + length (if (p <? length (data m))%nat
                               then take n (drop p (data m)) else [])
                   =? length (data m))%nat
               then Some EOF else None) = Returns r' bs err) as Heq.
    { destruct cancelled, (closeChan m), pick; simpl in Hret;
        try (destruct (p <? length (data m))%nat; simpl in Hret);
        try discriminate; try exact Hret; by simplify_eq. }
    clear Hret. injection Heq as <- <- <-. simpl. clear Herr.
    destruct (p <? length (data m))%nat eqn:Hlt.
    + apply Nat.ltb_lt in Hlt. rewrite !length_take, !length_drop.
      split; [reflexivity|]. split; [lia|]. split; [reflexivity|].
      split; [lia|]. split.
      * destruct (closeCalled m); simpl.
        -- destruct (_ =? _)%nat eqn:He.
           ++ apply Nat.eqb_eq in He. by split.
           ++ apply Nat.eqb_neq in He. split; [done|]. by intros [_ ?].
        -- split; [done|]. by intros [? _].
      * intros Hn _ Hnil. apply (f_equal length) in Hnil.
        rewrite length_take, length_drop in Hnil. simpl in Hnil. lia.
    + apply Nat.ltb_ge in Hlt. simpl. rewrite Nat.add_0_r.
      split; [by rewrite drop_ge, take_nil|]. split; [lia|]. split; [done|].
      split; [done|]. split; [|lia].
      destruct (closeCalled m); simpl.
      * destruct (_ =? _)%nat eqn:He.
        -- apply Nat.eqb_eq in He. by split.
        -- apply Nat.eqb_neq in He. split; [done|]. by intros [_ ?].
      * split; [done|]. by intros [? _].
Qed.

(** ** No lost wake-up *)

(** A reader stays asleep inside [cond.Wait()] only while nothing it waits
    for has happened without a [Broadcast] still to come: the channel is not
    closed; a cancelled context has its watcher goroutine still running; and
    bytes beyond its cursor are there only while the writer stands between
    its [Unlock] and its [Broadcast].  The watcher of a reader has ended only
    after the context was cancelled or the channel closed. *)
Definition awake_or_pending (m : MultiReader) (w : writer_pc) (r : reader_state)
  : Prop :=
  (r_watcher r = false → r_done r = true ∨ closeChan m = true) ∧
  match r_pc r with
  | RWait _ false =>
      closeChan m = false ∧
      (r_done r = true → r_watcher r = true) ∧
      ((r_pos r < length (data m))%nat → ∃ p, w = WAppended p)
  | _ => True
  end.

Definition live (s : system) : Prop :=
  Forall (awake_or_pending (log s) (writer s)) (readers s).

Lemma awake_wake m w r : 
  (r_watcher r = false → r_done r = true ∨ closeChan m = true) →
  awake_or_pending m w (wake r).
Proof.
  intros H. unfold awake_or_pending, wake.
  destruct (r_pc r) as [|?|? []|?] eqn:Hpc; simpl; rewrite ?Hpc; by split.
Qed.

Lemma live_Broadcast m m' w w' rs :
  (closeChan m = true → closeChan m' = true) →
  Forall (awake_or_pending m w) rs →
  Forall (awake_or_pending m' w') (Broadcast rs).
Proof.
  intros Hm H. unfold Broadcast. apply Forall_fmap.
  eapply Forall_impl; [exact H|]. intros r [Hr _]. apply awake_wake.
  intros Hw. destruct (Hr Hw); auto.
Qed.

(** No reader sleeps unwoken once the channel is closed. *)
Lemma no_sleeper_when_closed m w rs r i :
  Forall (awake_or_pending m w) rs → rs !! i = Some r → closeChan m = true →
  ∀ n, r_pc r ≠ RWait n false.
Proof.
  intros H Hi Hc n Hpc. eapply Forall_lookup_1 in H as [_ H]; [|done].
  rewrite Hpc in H. destruct H as [H _]. congruence.
Qed.

Lemma step_live s l s' : live s → step s l = Some s' → live s'.
Proof.
  unfold live. intros Hlive Hstep.
  destruct l; simpl in Hstep.
  - (* LGetReader *)
    simplify_eq. simpl. apply Forall_app. split; [done|].
    apply Forall_singleton. by split.
  - (* LCancel *)
    destruct (readers s !! i) as [r|] eqn:Hr; simplify_option_eq. simpl.
    apply Forall_insert; [done|].
    eapply Forall_lookup_1 in Hlive as [Hw H]; [|done].
    split; simpl; [auto|].
    destruct (r_pc r) as [|?|? []|?]; try done.
    destruct H as (Hc & Hd & Hp). split; [done|]. split; [|done].
    intros _. destruct (r_watcher r) eqn:Hwt; [done|].
    destruct Hw as [?|?]; [done|auto|congruence].
  - (* LWatchCancel *)
    destruct (readers s !! i) as [r|] eqn:Hr; simplify_option_eq. simpl.
    destruct (r_watcher r && r_done r && negb (mu s)) eqn:Hg; simplify_eq.
    simpl. apply andb_prop in Hg as [[_ Hd]%andb_prop _].
    unfold Broadcast. rewrite list_fmap_insert. apply Forall_insert.
    + eapply live_Broadcast; [|done]. done.
    + apply awake_wake. simpl. auto.
  - (* LWatchClose *)
    destruct (readers s !! i) as [r|] eqn:Hr; simplify_option_eq. simpl.
    destruct (r_watcher r && closeChan (log s)) eqn:Hg; simplify_eq.
    simpl. apply andb_prop in Hg as [_ Hc].
    apply Forall_insert; [done|].
    split; simpl; [auto|].
    pose proof (no_sleeper_when_closed _ _ _ _ _ Hlive Hr Hc) as Hno.
    destruct (r_pc r) as [|?|n []|?]; try done. by destruct (Hno n).
  - (* LWriteCall *)
    destruct (writer s) eqn:Hw; [|done..].
    destruct (closeCalled (log s)); simplify_eq; simpl;
      (eapply Forall_impl; [exact Hlive|]); intros r [H1 H2]; (split; [done|]);
      destruct (r_pc r) as [|?|? []|?]; try done;
      destruct H2 as (? & ? & Hp); (split; [done|]); (split; [done|]);
      intros Hlt; by destruct (Hp Hlt).
  - (* LWriteAppend *)
    destruct (writer s) eqn:Hw; [done| |done].
    destruct (mu s); simplify_eq. simpl.
    eapply Forall_impl; [exact Hlive|]. intros r [H1 H2]. split; [done|].
    destruct (r_pc r) as [|?|? []|?]; try done.
    destruct H2 as (? & ? & Hp). split; [done|]. split; [done|]. eauto.
  - (* LWriteBroadcast *)
    destruct (writer s) eqn:Hw; [done|done|]. simplify_eq. simpl.
    by eapply live_Broadcast.
  - (* LCloseCall *)
    destruct (closeCalled (log s)); simplify_eq; done.
  - (* LCloseStore *)
    destruct (closers s !! c) as [[]|]; simplify_eq. done.
  - (* LCloseChan *)
    destruct (closers s !! c) as [[]|]; try done.
    destruct (mu s); [done|]. unfold close_chan in Hstep.
    destruct (closeChan (log s)); simplify_option_eq. simpl.
    by eapply live_Broadcast.
  - (* LReadCall *)
    destruct (readers s !! i) as [r|] eqn:Hr; simplify_option_eq.
    destruct (r_pc r) eqn:Hpc; try done. destruct (mu s); simplify_eq. simpl.
    apply Forall_insert; [done|].
    eapply Forall_lookup_1 in Hlive as [Hw H]; [|done]. by split.
  - (* LReadIter *)
    destruct (readers s !! i) as [r|] eqn:Hr; simplify_option_eq.
    destruct (r_pc r) eqn:Hpc; try done.
    eapply Forall_lookup_1 in Hlive as Hri; [|done]. destruct Hri as [Hw _].
    destruct (loop_iter (log s) (r_pos r) (r_done r) pick) eqn:Hit;
      simplify_eq; simpl; (apply Forall_insert; [done|]); (split; [done|]);
      simpl; try done.
    unfold loop_iter in Hit.
    destruct (r_done r), (closeChan (log s)); try (by destruct pick); try done.
    destruct (r_pos r <? length (data (log s)))%nat eqn:Hlt; [done|].
    apply Nat.ltb_ge in Hlt. split; [done|]. split; [done|]. lia.
  - (* LReadWake *)
    destruct (readers s !! i) as [r|] eqn:Hr; simplify_option_eq.
    destruct (r_pc r) as [|?|? []|?] eqn:Hpc; try done.
    destruct (mu s); simplify_eq. simpl.
    apply Forall_insert; [done|].
    eapply Forall_lookup_1 in Hlive as [Hw H]; [|done]. by split.
  - (* LReadCopy *)
    destruct (readers s !! i) as [r|] eqn:Hr; simplify_option_eq.
    destruct (r_pc r) eqn:Hpc; try done.
    destruct (after_loop (log s) (r_pos r) n) as [[pos' bs] err].
    simplify_eq. simpl. apply Forall_insert; [done|].
    eapply Forall_lookup_1 in Hlive as [Hw H]; [|done]. by split.
Qed.

Lemma run_live ls : ∀ s s', live s → run s ls = Some s' → live s'.
Proof.
  induction ls as [|l ls IH]; simpl; intros s s' Hl Hrun.
  - by simplify_eq.
  - destruct (step s l) as [s1|] eqn:Hstep; simpl in Hrun; [|done].
    eapply IH; [|done]. by eapply step_live.
Qed.

(** No wake-up is lost: in every reachable state a reader that is inside
    [cond.Wait()] and has not been woken finds the channel open, has its
    watcher still running when its context is cancelled, and has bytes
    beyond its cursor only while the writer owes its [Broadcast]. *)
Theorem no_lost_wakeup (s : system) (i n : nat) (r : reader_state) :
  reachable s →
  readers s !! i = Some r →
  r_pc r = RWait n false →
  closeChan (log s) = false ∧
  (r_done r = true → r_watcher r = true) ∧
  ((r_pos r < length (data (log s)))%nat → ∃ p, writer s = WAppended p).
Proof.
  intros [ls Hrun] Hr Hpc.
  assert (live s) as Hlive.
  { eapply run_live; [|done]. unfold live. simpl. constructor. }
  eapply Forall_lookup_1 in Hlive as [_ H]; [|done]. by rewrite Hpc in H.
Qed.

Definition sleeping_schedule : list label :=
  [ LGetReader; LReadCall 0 8; LReadIter 0 false ].

Definition sleeping_state : system :=
  Eval vm_compute in default init (run init sleeping_schedule).

Definition sleeping_reader : reader_state :=
  {| r_pos := 0; r_done := false; r_watcher := true; r_pc := RWait 8 false;
     r_seen := []; r_ret := None |}.

Lemma no_lost_wakeup_witness :
  closeChan (log sleeping_state) = false ∧
  (r_done sleeping_reader = true → r_watcher sleeping_reader = true) ∧
  ((r_pos sleeping_reader < length (data (log sleeping_state)))%nat →
   ∃ p, writer sleeping_state = WAppended p).
Proof.
  apply (no_lost_wakeup sleeping_state 0 8 sleeping_reader).
  - exists sleeping_schedule. vm_compute. reflexivity.
  - reflexivity.
  - reflexivity.
Defined.

(** ** The log only grows *)

(** What a step can do to the log: bytes are added at the end, and the
    flag and the channel, once set or closed, stay so. *)
Definition grows (m m' : MultiReader) : Prop :=
  data m `prefix_of` data m' ∧
  (closeCalled m = true → closeCalled m' = true) ∧
  (closeChan m = true → closeChan m' = true).

Lemma grows_refl m : grows m m.
Proof. by split. Qed.

Lemma grows_trans m1 m2 m3 : grows m1 m2 → grows m2 m3 → grows m1 m3.
Proof.
  intros (Hd & Hc & Hch) (Hd' & Hc' & Hch'). split; [by etrans|]. split; auto.
Qed.

Lemma step_grows s l s' : step s l = Some s' → grows (log s) (log s').
Proof.
  intros Hstep.
  destruct l; simpl in Hstep; simplify_option_eq;
    repeat (match goal with
            | H : match ?x with _ => _ end = Some _ |- _ =>
                destruct x eqn:?; simplify_option_eq
            end);
    simpl; try apply grows_refl.
  - split; [by apply prefix_app_r|]. done.
  - split; [done|]. done.
  - unfold close_chan in *. case_match; simplify_eq. done.
Qed.

(** Along every schedule the bytes of the log stay where they are and new
    ones come at the end; the [closed] flag and the closed channel are never
    reset. *)
Theorem log_only_grows (s s' : system) (ls : list label) :
  run s ls = Some s' →
  data (log s) `prefix_of` data (log s') ∧
  (closeCalled (log s) = true → closeCalled (log s') = true) ∧
  (closeChan (log s) = true → closeChan (log s') = true).
Proof.
  revert s. induction ls as [|l ls IH]; simpl; intros s Hrun.
  - simplify_eq. apply grows_refl.
  - destruct (step s l) as [s1|] eqn:Hstep; simpl in Hrun; [|done].
    eapply grows_trans; [by eapply step_grows|]. by apply IH.
Qed.

Lemma log_only_grows_witness :
  bytes_of "foo." `prefix_of` bytes_of "foo.bar".
Proof.
  refine (proj1 (log_only_grows
    (default init (run init (take 4 demo_schedule))) demo_state
    (drop 4 demo_schedule) _)).
  vm_compute. reflexivity.
Defined.

(** ** [Write] against [Close] *)

(** A [Write] that has passed its test of [closed] before a [Close] stores
    the flag still appends its bytes after that [Close] has returned: from any
    state with an idle writer, an open log and the mutex free, this schedule
    runs, and it ends with the log closed and the bytes added. *)
Theorem write_races_close (s : system) (p : list byte) :
  writer s = WIdle →
  closeCalled (log s) = false →
  closeChan (log s) = false →
  mu s = false →
  ∃ s',
    run s [ LWriteCall p; LCloseCall; LCloseStore (length (closers s));
            LCloseChan (length (closers s)); LWriteAppend; LWriteBroadcast ]
      = Some s' ∧
    closers s' !! length (closers s) = Some CReturned ∧
    closeCalled (log s') = true ∧ closeChan (log s') = true ∧
    data (log s') = data (log s) ++ p ∧
    w_ret s' = Some (length p, None).
Proof.
  intros Hw Hcl Hch Hmu. destruct s as [m mu w wr cs rs]. simpl in *. subst.
  unfold run, step. simpl. rewrite Hcl. simpl. rewrite Hcl. simpl.
  rewrite list_lookup_middle by done. simpl.
  rewrite list_lookup_insert_eq by (rewrite length_app; simpl; lia). simpl.
  unfold close_chan. simpl. rewrite Hch. simpl.
  eexists. split; [reflexivity|]. simpl.
  split; [|done].
  rewrite list_insert_insert_eq.
  apply list_lookup_insert_eq. rewrite length_app. simpl. lia.
Qed.

Lemma write_races_close_witness :
  ∃ s',
    run init [ LWriteCall (bytes_of "late"); LCloseCall; LCloseStore 0;
               LCloseChan 0; LWriteAppend; LWriteBroadcast ] = Some s' ∧
    closers s' !! 0%nat = Some CReturned ∧
    closeCalled (log s') = true ∧ closeChan (log s') = true ∧
    data (log s') = bytes_of "late" ∧
    w_ret s' = Some (4%nat, None).
Proof.
  apply (write_races_close init (bytes_of "late")); reflexivity.
Defined.

End bufferz_facts.

(* ===================================================================== *)
(** * Properties of the runtime monad *)
(* ===================================================================== *)

Module rt_facts.
Import rt.

Lemma bind_Ok {S A B} (c : M S A) (k : A → M S B) s s' b :
  (c ≫= k) s = (s', Ok b) → ∃ a s1, c s = (s1, Ok a) ∧ k a s1 = (s', Ok b).
Proof.
  unfold mbind, M_bind, bind. destruct (c s) as [s1 [a|e|msg|]]; intros H;
    by eauto.
Qed.

Lemma wrap_Ok {S A} pre (c : M S A) s s' a :
  wrap pre c s = (s', Ok a) → c s = (s', Ok a).
Proof. unfold wrap. by destruct (c s) as [s1 [?|?|?|]]. Qed.

Lemma mret_Ok {S A} (a b : A) (s s' : S) :
  (mret a : M S A) s = (s', Ok b) → s' = s ∧ b = a.
Proof. unfold mret, M_ret, ret. by intros [= -> ->]. Qed.

(** A successful [os.WriteFile] leaves the file and one event. *)
Lemma WriteFile_Ok path content w w' u :
  WriteFile path content w = (w', Ok u) →
  trace w' = trace w ++ [EvWriteFile path content true] ∧
  files w' = <[path := content]> (files w).
Proof.
  unfold WriteFile, fault, mbind, M_bind, bind, modify, throw.
  destruct (faults w) as [|[e|] fs]; simpl; intros [= <-]; done.
Qed.

Lemma MkdirAll_Ok path w w' u :
  MkdirAll path w = (w', Ok u) →
  trace w' = trace w ++ [EvMkdirAll path true] ∧ files w' = files w.
Proof.
  unfold MkdirAll, fault, mbind, M_bind, bind, modify, throw.
  destruct (faults w) as [|[e|] fs]; simpl; intros [= <-]; done.
Qed.

(** [wp c Q s]: the run of [c] from [s] ends in a state and a result that satisfy [Q]. *)
Definition wp {S A} (c : M S A) (Q : S → res A → Prop) (s : S) : Prop :=
  Q (c s).1 (c s).2.

Lemma wp_bind {S A B} (c : M S A) (k : A → M S B) Q s :
  wp c (λ s1 r, match r with
                | Ok a => wp (k a) Q s1
                | rt.Err e => Q s1 (rt.Err e)
                | Panic msg => Q s1 (Panic msg)
                | Block => Q s1 Block
                end) s →
  wp (c ≫= k) Q s.
Proof.
  unfold wp, mbind, M_bind, bind. by destruct (c s) as [s1 [a|e|msg|]].
Qed.

Lemma wp_mono {S A} (c : M S A) (Q Q' : S → res A → Prop) s :
  wp c Q s → (∀ s' r, Q s' r → Q' s' r) → wp c Q' s.
Proof. unfold wp. auto. Qed.

Lemma wp_wrap {S A} pre (c : M S A) Q s :
  wp c (λ s' r, Q s' (match r with rt.Err e => rt.Err (pre +:+ e) | _ => r end)) s →
  wp (wrap pre c) Q s.
Proof. unfold wp, wrap. by destruct (c s) as [s1 [a|e|msg|]]. Qed.

Lemma wp_try {S A} (c : M S A) Q s :
  wp c (λ s' r, Q s' (match r with
                      | Ok a => Ok (inl a)
                      | rt.Err e => Ok (inr e)
                      | Panic msg => Panic msg
                      | Block => Block
                      end)) s →
  wp (try c) Q s.
Proof. unfold wp, try. by destruct (c s) as [s1 [a|e|msg|]]. Qed.

(** Code that leaves the [exec.Cmd] objects alone. *)
Definition keeps_cmds {A} (c : M world A) : Prop :=
  ∀ w, cmds (c w).1 = cmds w.

Lemma keeps_bind {A B} (c : M world A) (k : A → M world B) :
  keeps_cmds c → (∀ a, keeps_cmds (k a)) → keeps_cmds (c ≫= k).
Proof.
  intros Hc Hk w. unfold mbind, M_bind, bind. specialize (Hc w).
  destruct (c w) as [w1 [a|e|msg|]]; try done.
  rewrite <- Hc. apply Hk.
Qed.
Lemma keeps_mret {A} (a : A) : keeps_cmds (mret a).
Proof. done. Qed.
Lemma keeps_throw {A} e : keeps_cmds (throw e : M world A).
Proof. done. Qed.
Lemma keeps_panic {A} e : keeps_cmds (panic e : M world A).
Proof. done. Qed.
Lemma keeps_get : keeps_cmds get.
Proof. done. Qed.
Lemma keeps_fault : keeps_cmds fault.
Proof. intros w. unfold fault. by destruct (faults w). Qed.
Lemma keeps_try {A} (c : M world A) : keeps_cmds c → keeps_cmds (try c).
Proof. intros Hc w. specialize (Hc w). unfold try. by destruct (c w) as [? [?|?|?|]]. Qed.
Lemma keeps_wrap {A} pre (c : M world A) : keeps_cmds c → keeps_cmds (wrap pre c).
Proof. intros Hc w. specialize (Hc w). unfold wrap. by destruct (c w) as [? [?|?|?|]]. Qed.
Lemma keeps_modify f : (∀ w, cmds (f w) = cmds w) → keeps_cmds (modify f).
Proof. intros Hf w. apply Hf. Qed.

Create HintDb keeps.
#[export] Hint Resolve keeps_mret keeps_throw keeps_panic keeps_get keeps_fault
  keeps_try keeps_wrap : keeps.

Ltac keeps_step :=
  lazymatch goal with
  | |- keeps_cmds (_ ≫= _) => apply keeps_bind; [|intros ?]
  | |- keeps_cmds (modify _) => apply keeps_modify; intros ?; done
  | |- keeps_cmds (match ?x with _ => _ end) => destruct x
  | |- keeps_cmds (if ?x then _ else _) => destruct x
  | |- keeps_cmds (let _ := _ in _) => cbv zeta
  | |- keeps_cmds _ => solve [auto with keeps]
  end.

Lemma keeps_WriteFile p c : keeps_cmds (WriteFile p c).
Proof. unfold WriteFile. repeat keeps_step. Qed.
Lemma keeps_MkdirAll p : keeps_cmds (MkdirAll p).
Proof. unfold MkdirAll. repeat keeps_step. Qed.
Lemma keeps_RemoveAll p : keeps_cmds (RemoveAll p).
Proof. unfold RemoveAll. repeat keeps_step. Qed.
Lemma keeps_Sleep d : keeps_cmds (Sleep d).
Proof. unfold Sleep. repeat keeps_step. Qed.
#[export] Hint Resolve keeps_WriteFile keeps_MkdirAll keeps_RemoveAll keeps_Sleep : keeps.

Lemma bind_Err {S A B} (c : M S A) (k : A → M S B) s s' e :
  (c ≫= k) s = (s', Err e) →
  c s = (s', Err e) ∨ ∃ a s1, c s = (s1, Ok a) ∧ k a s1 = (s', Err e).
Proof.
  unfold mbind, M_bind, bind. destruct (c s) as [s1 [a|e1|msg|]]; intros H.
  - right. by exists a, s1.
  - left. by simplify_eq.
  - done.
  - done.
Qed.

Lemma wrap_Err {S A} pre (c : M S A) s s' e :
  wrap pre c s = (s', Err e) → ∃ e0, c s = (s', Err e0) ∧ e = pre +:+ e0.
Proof.
  unfold wrap. destruct (c s) as [s1 [?|e0|?|]]; intros H; simplify_eq. eauto.
Qed.

Lemma WriteFile_Err path content w w' e :
  WriteFile path content w = (w', Err e) →
  trace w' = trace w ++ [EvWriteFile path content false] ∧ files w' = files w.
Proof.
  unfold WriteFile, fault, mbind, M_bind, bind, modify, throw.
  destruct (faults w) as [|[e1|] fs]; simpl; intros [= <-]; done.
Qed.

Lemma MkdirAll_Err path w w' e :
  MkdirAll path w = (w', Err e) →
  trace w' = trace w ++ [EvMkdirAll path false] ∧ files w' = files w.
Proof.
  unfold MkdirAll, fault, mbind, M_bind, bind, modify, throw.
  destruct (faults w) as [|[e1|] fs]; simpl; intros [= <-]; done.
Qed.

End rt_facts.

(* ===================================================================== *)
(** * Properties of package cgroupz *)
(* ===================================================================== *)

Module cgroupz_facts.
Import rt rt_facts cgroupz.

Lemma keeps_cleanUp_loop n : ∀ d e p, keeps_cmds (cleanUp_loop n d e p).
Proof. induction n; intros; simpl; repeat keeps_step. Qed.
Lemma keeps_cleanUp p : keeps_cmds (cleanUp p).
Proof. apply keeps_cleanUp_loop. Qed.
#[export] Hint Resolve keeps_cleanUp : keeps.

Lemma keeps_deferred {A} p (c : M world A) : keeps_cmds c → keeps_cmds (deferred_cleanUp p c).
Proof.
  intros Hc w. specialize (Hc w). unfold deferred_cleanUp.
  destruct (c w) as [w1 [?|e|?|]]; try done.
  pose proof (keeps_try _ (keeps_cleanUp p) w1) as H.
  destruct (try (cleanUp p) w1) as [w2 [[?|?]|?|?|]]; simpl in *; congruence.
Qed.

Lemma keeps_New n m l : keeps_cmds (New n m l).
Proof. unfold New. repeat first [apply keeps_deferred | keeps_step]. Qed.

Lemma deferred_cleanUp_Ok {A} path (body : M world A) w w' a :
  deferred_cleanUp path body w = (w', Ok a) → body w = (w', Ok a).
Proof.
  unfold deferred_cleanUp. destruct (body w) as [w1 [?|e|?|]]; try done.
  by destruct (try (cleanUp path) w1) as [w2 [[?|?]|?|?|]].
Qed.

(** The write of one knob, when the knob is present. *)
Definition knob_event (present : bool) (path knob : string) (value : string)
  : list event :=
  if present then [EvWriteFile (rt.Join [path; knob]) (bytes_of value) true]
  else [].

(** C9.  When [New] succeeds, the controller has the path
    [<mountPoint>/<name>], and what [New] did to the file system is, in this
    order and nothing else: the write of the subtree controllers, the
    creation of the directory, then for each limit that is present one write
    of its value to its knob file: the decimal string of [CpuWeight] to
    [cpu.weight] when [CpuWeight] is not 0, the decimal string of [MaxMem] to
    [memory.max] when [MaxMem] is not 0, and [<maj>:<min> wiops=<n>] to
    [io.max] when [MaxIO] is not nil.  A knob that is 0 or nil is not
    written. *)
Theorem New_writes_knobs (name mountPoint : string) (limits : ResourceLimit)
    (w w' : world) (c : CgroupController) :
  New name mountPoint limits w = (w', Ok c) →
  let path := rt.Join [mountPoint; name] in
  Path c = path ∧
  trace w' = trace w ++
    [ EvWriteFile (rt.Join [mountPoint; "cgroup.subtree_control"])
        (bytes_of "+cpu +memory +io") true;
      EvMkdirAll path true ] ++
    knob_event (bool_decide (CpuWeight limits ≠ 0)) path "cpu.weight"
      (Itoa (CpuWeight limits)) ++
    knob_event (bool_decide (MaxMem limits ≠ 0)) path "memory.max"
      (Itoa (MaxMem limits)) ++
    match MaxIO limits with
    | Some io =>
        [EvWriteFile (rt.Join [path; "io.max"])
           (bytes_of (Itoa (Maj io) +:+ ":" +:+ Itoa (Min io) +:+ " wiops=" +:+
                      Itoa (MaxIO_ io))) true]
    | None => []
    end.
Proof.
  intros HNew path. unfold New in HNew. fold path in HNew.
  apply bind_Ok in HNew as (u1 & w1 & H1 & HNew).
  apply wrap_Ok, WriteFile_Ok in H1 as [T1 _].
  apply bind_Ok in HNew as (u2 & w2 & H2 & HNew).
  apply wrap_Ok, MkdirAll_Ok in H2 as [T2 _].
  apply deferred_cleanUp_Ok in HNew.
  apply bind_Ok in HNew as (u3 & w3 & H3 & HNew).
  apply bind_Ok in HNew as (u4 & w4 & H4 & HNew).
  apply bind_Ok in HNew as (u5 & w5 & H5 & HNew).
  apply mret_Ok in HNew as [-> ->]. split; [done|].
  assert (trace w3 = trace w2 ++
            knob_event (bool_decide (CpuWeight limits ≠ 0)) path "cpu.weight"
              (Itoa (CpuWeight limits))) as T3.
  { revert H3. unfold knob_event.
    destruct (bool_decide (CpuWeight limits ≠ 0)); intros H3.
    - by apply wrap_Ok, WriteFile_Ok in H3 as [? _].
    - apply mret_Ok in H3 as [-> _]. by rewrite app_nil_r. }
  assert (trace w4 = trace w3 ++
            knob_event (bool_decide (MaxMem limits ≠ 0)) path "memory.max"
              (Itoa (MaxMem limits))) as T4.
  { revert H4. unfold knob_event.
    destruct (bool_decide (MaxMem limits ≠ 0)); intros H4.
    - by apply wrap_Ok, WriteFile_Ok in H4 as [? _].
    - apply mret_Ok in H4 as [-> _]. by rewrite app_nil_r. }
  destruct (MaxIO limits) as [io|].
  - apply wrap_Ok, WriteFile_Ok in H5 as [T5 _].
    rewrite T5, T4, T3, T2, T1. rewrite <- !app_assoc. done.
  - apply mret_Ok in H5 as [-> _].
    rewrite T4, T3, T2, T1. rewrite <- !app_assoc. simpl.
    by rewrite app_nil_r.
Qed.

(** [Test_NewCgroup_CreatesFiles], "test cpu": with [CpuWeight: 99] and the
    other limits left at their zero values. *)
Definition cpu_only : ResourceLimit :=
  {| CpuWeight := 99; MaxMem := 0; MaxIO := None |}.

Definition cpu_only_world : world :=
  fst (New "job" "/lib_cgroup" cpu_only empty_world).

Lemma New_writes_knobs_witness :
  New "job" "/lib_cgroup" cpu_only empty_world
    = (cpu_only_world, Ok {| Path := "/lib_cgroup/job" |}) ∧
  trace cpu_only_world =
    [ EvWriteFile "/lib_cgroup/cgroup.subtree_control"
        (bytes_of "+cpu +memory +io") true;
      EvMkdirAll "/lib_cgroup/job" true;
      EvWriteFile "/lib_cgroup/job/cpu.weight" (bytes_of "99") true ].
Proof.
  assert (New "job" "/lib_cgroup" cpu_only empty_world
          = (cpu_only_world, Ok {| Path := "/lib_cgroup/job" |})) as H.
  { vm_compute. reflexivity. }
  split; [exact H|].
  exact (proj2 (New_writes_knobs "job" "/lib_cgroup" cpu_only empty_world
                  cpu_only_world _ H)).
Defined.

(** Cgroup knob fidelity: after that call the file [cpu.weight] of the job
    holds exactly the bytes "99", and neither [memory.max] nor [io.max]
    exists. *)
Example cpu_weight_file :
  files cpu_only_world !! "/lib_cgroup/job/cpu.weight" = Some (bytes_of "99") ∧
  files cpu_only_world !! "/lib_cgroup/job/memory.max" = None ∧
  files cpu_only_world !! "/lib_cgroup/job/io.max" = None.
Proof. vm_compute. done. Qed.

(** "test io": the line written to [io.max]. *)
Example io_max_file :
  files (fst (New "job" "/lib_cgroup"
                {| CpuWeight := 0; MaxMem := 28;
                   MaxIO := Some {| MaxIO_ := 22; Maj := 8; Min := 6 |} |}
                empty_world))
    !! "/lib_cgroup/job/io.max" = Some (bytes_of "8:6 wiops=22").
Proof. vm_compute. done. Qed.

(** ** The retries of [cleanUp] *)

Definition removed (path : string) (fs : gmap string (list byte))
  : gmap string (list byte) :=
  filter (λ kv, below path kv.1 = false) fs.

Lemma RemoveAll_run path w :
  RemoveAll path w =
  match faults w with
  | Some e :: fs => (emit (EvRemoveAll path false) (set_faults fs w), Err e)
  | None :: fs =>
      (emit (EvRemoveAll path true) (set_files (removed path) (set_faults fs w)),
       Ok tt)
  | [] => (emit (EvRemoveAll path true) (set_files (removed path) w), Ok tt)
  end.
Proof.
  unfold RemoveAll, fault, mbind, M_bind, bind.
  by destruct (faults w) as [|[e|] fs].
Qed.

Lemma cleanUp_loop_S n d err path w :
  cleanUp_loop (S n) d err path w =
  match RemoveAll path w with
  | (w', Ok _) => (w', Ok tt)
  | (w', Err e) => cleanUp_loop n (d * 2) e path (emit (EvSleep d) w')
  | (w', Panic msg) => (w', Panic msg)
  | (w', Block) => (w', Block)
  end.
Proof.
  simpl. unfold mbind, M_bind, bind, try.
  by destruct (RemoveAll path w) as [w' [[]|e|?|]].
Qed.

(** The passes of the loop that fail with the errors [es], the first of
    them followed by a sleep of [d] milliseconds, each next sleep twice as
    long. *)
Fixpoint failed_passes (path : string) (d : Z) (es : list string) : list event :=
  match es with
  | [] => []
  | _ :: es' =>
      EvRemoveAll path false :: EvSleep d :: failed_passes path (d * 2) es'
  end.

(** The system lets the next call pass. *)
Definition next_ok (fs : list (option string)) : bool :=
  match fs with
  | Some _ :: _ => false
  | _ => true
  end.

Lemma cleanUp_loop_run es : ∀ n d err path w rest,
  faults w = (Some <$> es) ++ rest →
  (length es ≤ n)%nat →
  ((length es < n)%nat → next_ok rest = true) →
  cleanUp_loop n d err path w =
  if (length es <? n)%nat then
    ({| files := removed path (files w); faults := tail rest;
        trace := trace w ++ failed_passes path d es ++ [EvRemoveAll path true];
        cmds := cmds w; logs := logs w; cancelled := cancelled w;
        next_ctx := next_ctx w |}, Ok tt)
  else
    ({| files := files w; faults := rest;
        trace := trace w ++ failed_passes path d es;
        cmds := cmds w; logs := logs w; cancelled := cancelled w;
        next_ctx := next_ctx w |}, Err ("os.RemoveAll: " +:+ default err (last es))).
Proof.
  induction es as [|e es IH]; intros n d err path w rest Hf Hn Hok.
  - simpl in Hf. destruct n as [|n].
    + simpl. rewrite app_nil_r. destruct w; simpl in *; by subst.
    + rewrite cleanUp_loop_S, RemoveAll_run, Hf.
      specialize (Hok ltac:(simpl; lia)).
      destruct rest as [|[?|] rest]; try done; simpl;
        destruct w; simpl in *; by subst.
  - simpl in Hf. destruct n as [|n]; [simpl in Hn; lia|].
    rewrite cleanUp_loop_S, RemoveAll_run, Hf.
    rewrite (IH n (d * 2) e path _ rest); simpl; [|done|simpl in Hn; lia|].
    + replace (S (length es) <? S n)%nat with (length es <? n)%nat by done.
      replace (default err (last (e :: es))) with (default e (last es))
        by (destruct es as [|e' es]; [done|rewrite last_cons_cons; simpl; destruct (last (e' :: es)) eqn:E; [done|]; by rewrite last_cons in E; destruct (last es)]).
      destruct (length es <? n)%nat; simpl; rewrite <- !app_assoc; done.
    + intros H. apply Hok. simpl. lia.
Qed.

(** [cleanUp] tries [os.RemoveAll] up to four times.  When the first
    [length es] tries fail with the errors [es] and the next one, if there
    is room for it, passes, then each failed try is followed by a sleep of
    10, 20, 40 and 80 milliseconds in this order (also the fourth).  With
    fewer than four failures the result is nil and nothing below [path] is
    left; with four the result is the error ["os.RemoveAll: "] followed by
    the error of the fourth try, and the files stay. *)
Theorem cleanUp_retries (path : string) (w : world) (es : list string)
    (rest : list (option string)) :
  faults w = (Some <$> es) ++ rest →
  (length es ≤ 4)%nat →
  ((length es < 4)%nat → next_ok rest = true) →
  ∃ w' r,
    cleanUp path w = (w', r) ∧
    cmds w' = cmds w ∧ logs w' = logs w ∧ cancelled w' = cancelled w ∧
    if (length es <? 4)%nat then
      r = Ok tt ∧
      trace w' = trace w ++ failed_passes path 10 es ++ [EvRemoveAll path true] ∧
      files w' = removed path (files w) ∧
      (∀ name, below path name = true → files w' !! name = None) ∧
      faults w' = tail rest
    else
      r = Err ("os.RemoveAll: " +:+ default "" (last es)) ∧
      trace w' = trace w ++
        [ EvRemoveAll path false; EvSleep 10; EvRemoveAll path false; EvSleep 20;
          EvRemoveAll path false; EvSleep 40; EvRemoveAll path false; EvSleep 80 ] ∧
      files w' = files w ∧
      faults w' = rest.
Proof.
  intros Hf Hn Hok. unfold cleanUp.
  rewrite (cleanUp_loop_run es 4 10 "" path w rest Hf Hn Hok).
  destruct (length es <? 4)%nat eqn:Hlt.
  - eexists _, _. split; [reflexivity|]. simpl. repeat (split; [done|]).
    split; [|done]. intros name Hb. unfold removed.
    apply map_lookup_filter_None. right. intros x _. simpl. congruence.
  - apply Nat.ltb_ge in Hlt.
    destruct es as [|e1 [|e2 [|e3 [|e4 [|e5 es]]]]]; simpl in Hlt, Hn; try lia.
    eexists _, _. split; [reflexivity|]. simpl. done.
Qed.

Definition busy_twice : world :=
  set_files (λ _, {[ "/cg/job/cpu.weight" := bytes_of "99";
                     "/cg/other/cpu.weight" := bytes_of "1" ]})
    (set_faults [Some "device or resource busy"; Some "device or resource busy";
                 None; Some "later"] empty_world).

Lemma cleanUp_retries_witness :
  ∃ w' r,
    cleanUp "/cg/job" busy_twice = (w', r) ∧
    cmds w' = [] ∧ logs w' = [] ∧ cancelled w' = ∅ ∧
    r = Ok tt ∧
    trace w' =
      [ EvRemoveAll "/cg/job" false; EvSleep 10;
        EvRemoveAll "/cg/job" false; EvSleep 20; EvRemoveAll "/cg/job" true ] ∧
    files w' = removed "/cg/job" (files busy_twice) ∧
    (∀ name, below "/cg/job" name = true → files w' !! name = None) ∧
    faults w' = [Some "later"].
Proof.
  apply (cleanUp_retries "/cg/job" busy_twice
           ["device or resource busy"; "device or resource busy"]
           [None; Some "later"]).
  - reflexivity.
  - simpl. lia.
  - reflexivity.
Defined.

(** ** What [New] undoes when it fails *)

Definition cleanup_event (path : string) (ev : event) : Prop :=
  (∃ b, ev = EvRemoveAll path b) ∨ (∃ ms, ev = EvSleep ms).

Lemma cleanUp_loop_any n : ∀ d err path w,
  ∃ w' r evs,
    cleanUp_loop n d err path w = (w', r) ∧
    trace w' = trace w ++ evs ∧
    Forall (cleanup_event path) evs ∧
    ((0 < n)%nat → ∃ b, EvRemoveAll path b ∈ evs) ∧
    (r = Ok tt ∨ ∃ e, r = Err e) ∧
    (r = Ok tt → ∀ name, below path name = true → files w' !! name = None) ∧
    (files w' ⊆ files w).
Proof.
  induction n as [|n IH]; intros d err path w.
  - eexists w, _, []. simpl. split; [reflexivity|]. rewrite app_nil_r.
    split; [done|]. split; [done|]. split; [lia|]. split; [eauto|].
    split; [done|]. done.
  - rewrite cleanUp_loop_S, RemoveAll_run.
    destruct (faults w) as [|[e|] fs] eqn:Hf.
    + eexists _, _, [EvRemoveAll path true]. split; [reflexivity|]. simpl.
      split; [done|]. split; [apply Forall_singleton; left; eauto|].
      split; [intros _; exists true; constructor|]. split; [auto|].
      split; [|apply map_filter_subseteq].
      intros _ name Hb. apply map_lookup_filter_None. right. intros x _. simpl. congruence.
    + destruct (IH (d * 2) e path
                  (emit (EvSleep d) (emit (EvRemoveAll path false) (set_faults fs w))))
        as (w' & r & evs & Hrun & Ht & Hall & _ & Hr & Hok & Hsub).
      exists w', r, (EvRemoveAll path false :: EvSleep d :: evs).
      split; [done|]. simpl in Ht. rewrite <- !app_assoc in Ht. simpl in Ht.
      split; [done|].
      split; [constructor; [left; eauto|constructor; [right; eauto|done]]|].
      split; [intros _; exists false; constructor|]. done.
    + eexists _, _, [EvRemoveAll path true]. split; [reflexivity|]. simpl.
      split; [done|]. split; [apply Forall_singleton; left; eauto|].
      split; [intros _; exists true; constructor|]. split; [auto|].
      split; [|apply map_filter_subseteq].
      intros _ name Hb. apply map_lookup_filter_None. right. intros x _. simpl. congruence.
Qed.

(** The write of a knob file of the group at [path]. *)
Definition knob_write (path : string) (ev : event) : Prop :=
  ∃ knob content ok, ev = EvWriteFile (rt.Join [path; knob]) content ok.

(** Code that only writes knob files and returns or fails. *)
Definition knobs_only {A} (path : string) (c : M world A) : Prop :=
  ∀ w, ∃ evs,
    trace (c w).1 = trace w ++ evs ∧ Forall (knob_write path) evs ∧
    ((∃ a, (c w).2 = Ok a) ∨ (∃ e, (c w).2 = Err e)).

Lemma knobs_only_bind {A B} path (c : M world A) (k : A → M world B) :
  knobs_only path c → (∀ a, knobs_only path (k a)) → knobs_only path (c ≫= k).
Proof.
  intros Hc Hk w. destruct (Hc w) as (evs & Ht & Hall & Hr).
  unfold mbind, M_bind, bind. destruct (c w) as [w1 [a|e|msg|]]; simpl in *.
  - destruct (Hk a w1) as (evs' & Ht' & Hall' & Hr').
    exists (evs ++ evs'). rewrite Ht', Ht, <- app_assoc. split; [done|].
    split; [by apply Forall_app|done].
  - exists evs. eauto.
  - by destruct Hr as [[? ?]|[? ?]].
  - by destruct Hr as [[? ?]|[? ?]].
Qed.

Lemma knobs_only_mret {A} path (a : A) : knobs_only path (mret a).
Proof. intros w. exists []. simpl. rewrite app_nil_r. eauto. Qed.

Lemma knobs_only_write pre path knob content :
  knobs_only path (wrap pre (WriteFile (rt.Join [path; knob]) content)).
Proof.
  intros w. unfold wrap, WriteFile, fault, mbind, M_bind, bind.
  destruct (faults w) as [|[e|] fs]; simpl;
    (eexists [_]; split; [reflexivity|]; split;
       [apply Forall_singleton; by eexists _, _, _|eauto]).
Qed.

(** The deferred function of [New] on the error path: [cleanUp] has run;
    afterwards nothing is left below [path], or the failure was printed. *)
Lemma deferred_cleanUp_Err {A} path (body : M world A) w w' e :
  deferred_cleanUp path body w = (w', Err e) →
  ∃ w1 undo says,
    body w = (w1, Err e) ∧
    trace w' = trace w1 ++ undo ++ says ∧
    Forall (cleanup_event path) undo ∧
    (∃ b, EvRemoveAll path b ∈ undo) ∧
    ((says = [] ∧ ∀ f, below path f = true → files w' !! f = None) ∨
     (∃ msg, says = [EvPrint ("failed to clean up cgroup: " +:+ msg +:+ nl)])).
Proof.
  unfold deferred_cleanUp. destruct (body w) as [w1 [a|e1|msg|]]; try done.
  unfold try, cleanUp.
  destruct (cleanUp_loop_any 4 10 "" path w1)
    as (w2 & r & undo & Hrun & Ht & Hall & Hex & Hr & Hok & _).
  rewrite Hrun. specialize (Hex ltac:(lia)).
  destruct Hr as [->|[e2 ->]]; intros H; simplify_eq.
  - exists w1, undo, []. rewrite app_nil_r. split; [done|]. split; [done|].
    split; [done|]. split; [done|]. left. split; [done|]. by apply Hok.
  - exists w1, undo, [EvPrint ("failed to clean up cgroup: " +:+ e2 +:+ nl)].
    split; [done|]. simpl. rewrite Ht, <- app_assoc.
    split; [done|]. split; [done|]. split; [done|]. eauto.
Qed.

(** When [New] fails, what it did is one of three things.  The write of the
    subtree controllers failed, and nothing else was tried.  Or the directory
    could not be made, and nothing was removed.  Or the directory was made
    and the write of a knob failed: then [cleanUp] ran on the path of the
    group, and afterwards either no file is left below that path, or the
    failure to clean up was printed.  The error of [New] is in all cases the
    one of the failed step, never the one of the clean-up. *)
Theorem New_failure_undone (name mountPoint : string) (limits : ResourceLimit)
    (w w' : world) (e : string) :
  New name mountPoint limits w = (w', Err e) →
  let path := rt.Join [mountPoint; name] in
  let ctl := EvWriteFile (rt.Join [mountPoint; "cgroup.subtree_control"])
               (bytes_of "+cpu +memory +io") in
  (∃ e0, e = "cgroup.subtree_control write file: " +:+ e0 ∧
         trace w' = trace w ++ [ctl false] ∧ files w' = files w) ∨
  (∃ e0, e = "os.MkdirAll: " +:+ e0 ∧
         trace w' = trace w ++ [ctl true; EvMkdirAll path false]) ∨
  (∃ knobs undo says,
     trace w' = trace w ++ [ctl true; EvMkdirAll path true] ++ knobs ++ undo ++ says ∧
     Forall (knob_write path) knobs ∧
     Forall (cleanup_event path) undo ∧
     (∃ b, EvRemoveAll path b ∈ undo) ∧
     ((says = [] ∧ ∀ f, below path f = true → files w' !! f = None) ∨
      (∃ msg, says = [EvPrint ("failed to clean up cgroup: " +:+ msg +:+ nl)]))).
Proof.
  intros HNew path ctl. unfold New in HNew. fold path in HNew.
  apply bind_Err in HNew as [H1|(u1 & w1 & H1 & HNew)].
  { left. apply wrap_Err in H1 as (e0 & H1 & ->).
    apply WriteFile_Err in H1 as [Ht Hf]. eauto. }
  apply wrap_Ok, WriteFile_Ok in H1 as [T1 _].
  apply bind_Err in HNew as [H2|(u2 & w2 & H2 & HNew)].
  { right. left. apply wrap_Err in H2 as (e0 & H2 & ->).
    apply MkdirAll_Err in H2 as [Ht Hf]. exists e0. split; [done|].
    by rewrite Ht, T1, <- app_assoc. }
  apply wrap_Ok, MkdirAll_Ok in H2 as [T2 _].
  right. right.
  apply deferred_cleanUp_Err in HNew
    as (w3 & undo & says & Hbody & Ht & Hall & Hex & Hsays).
  match type of Hbody with
  | ?body w2 = _ => assert (knobs_only path body) as Hk
  end.
  { repeat (apply knobs_only_bind; [|intros ?]);
      repeat case_bool_decide; try destruct (MaxIO limits);
      try apply knobs_only_write; apply knobs_only_mret. }
  destruct (Hk w2) as (knobs & Htk & Hallk & _). rewrite Hbody in Htk.
  simpl in Htk. exists knobs, undo, says.
  rewrite Ht, Htk, T2, T1, <- !app_assoc. done.
Qed.

Definition no_memory_knob : world :=
  set_faults [None; None; None; Some "permission denied"] empty_world.

Lemma New_failure_undone_witness :
  let w' := (New "job" "/cg" {| CpuWeight := 99; MaxMem := 28; MaxIO := None |}
               no_memory_knob).1 in
  let ctl := EvWriteFile "/cg/cgroup.subtree_control" (bytes_of "+cpu +memory +io") in
  (∃ e0, "write memory max: permission denied"
           = "cgroup.subtree_control write file: " +:+ e0 ∧
         trace w' = trace no_memory_knob ++ [ctl false] ∧
         files w' = files no_memory_knob) ∨
  (∃ e0, "write memory max: permission denied" = "os.MkdirAll: " +:+ e0 ∧
         trace w' = trace no_memory_knob ++ [ctl true; EvMkdirAll "/cg/job" false]) ∨
  (∃ knobs undo says,
     trace w' = trace no_memory_knob ++ [ctl true; EvMkdirAll "/cg/job" true] ++
                knobs ++ undo ++ says ∧
     Forall (knob_write "/cg/job") knobs ∧
     Forall (cleanup_event "/cg/job") undo ∧
     (∃ b, EvRemoveAll "/cg/job" b ∈ undo) ∧
     ((says = [] ∧ ∀ f, below "/cg/job" f = true → files w' !! f = None) ∨
      (∃ msg, says = [EvPrint ("failed to clean up cgroup: " +:+ msg +:+ nl)]))).
Proof.
  apply (New_failure_undone "job" "/cg"
           {| CpuWeight := 99; MaxMem := 28; MaxIO := None |} no_memory_knob).
  vm_compute. reflexivity.
Defined.

(** In that run the weight was written, the write of the memory limit was
    refused, and the directory of the group was removed again. *)
Example New_failure_trace :
  trace (New "job" "/cg" {| CpuWeight := 99; MaxMem := 28; MaxIO := None |}
           no_memory_knob).1 =
  [ EvWriteFile "/cg/cgroup.subtree_control" (bytes_of "+cpu +memory +io") true;
    EvMkdirAll "/cg/job" true;
    EvWriteFile "/cg/job/cpu.weight" (bytes_of "99") true;
    EvWriteFile "/cg/job/memory.max" (bytes_of "28") false;
    EvRemoveAll "/cg/job" true ].
Proof. vm_compute. reflexivity. Qed.

End cgroupz_facts.

(* ===================================================================== *)
(** * Properties of the job supervisor *)
(* ===================================================================== *)

Module jobs_facts.
Import rt rt_facts cgroupz_facts jobs.

Lemma wp_inW {A} (c : M world A) Q w j :
  wp c (λ w' r, Q (w', j) r) w → wp (inW c) Q (w, j).
Proof. unfold wp, inW, zoom. simpl. by destruct (c w). Qed.

Lemma keeps_Close c : keeps_cmds (Close c).
Proof. unfold Close, cgroupz.Close. repeat keeps_step. Qed.
#[export] Hint Resolve keeps_Close : keeps.
Lemma keeps_close_all cs : keeps_cmds (close_all cs).
Proof. induction cs; simpl; repeat keeps_step. Qed.
Lemma keeps_Pipe c : keeps_cmds (exec.Pipe c).
Proof. unfold exec.Pipe. repeat keeps_step. Qed.

Lemma executed_cmds w w' j j' :
  cmds w' = cmds w → cmd j' = cmd j →
  executed w' j' = executed w j.
Proof. unfold executed. by intros -> ->. Qed.

(** The job has a command that was not started. *)
Definition unstarted (st : world * Job) : Prop :=
  ∃ c cm, cmd st.2 = Some c ∧ cmds st.1 !! c = Some cm ∧ Process cm = None.

Lemma unstarted_executed st : unstarted st → executed st.1 st.2 = false.
Proof.
  intros (c & cm & Hc & Hcm & Hp). unfold executed. rewrite Hc, Hcm, Hp.
  apply bool_decide_eq_false. intros Hne. by apply Hne.
Qed.

Definition guard_error : string := "process already executed".

(** What [start] and [Start] lead to from a job that was not executed. *)
Definition spawned_or_not (st : world * Job) (r : res unit) : Prop :=
  match r with
  | Ok _ => executed st.1 st.2 = true
  | rt.Err e => executed st.1 st.2 = false ∧ e ≠ guard_error
  | _ => executed st.1 st.2 = false
  end.

Lemma wp_modJ f Q w j : Q (w, f j) (Ok ()) → wp (modJ f) Q (w, j).
Proof. done. Qed.

(** The end of [start], from the two pipes on, for a job whose command
    [c] was not started. *)
Lemma start_tail c cm w j :
  cmd j = Some c → cmds w !! c = Some cm → Process cm = None →
  wp (wrap "j.cmd.StdoutPipe: " (inW (exec.Pipe c)) ≫= λ _,
      wrap "j.cmd.StderrPipe: " (inW (exec.Pipe c)) ≫= λ _,
      wrap "j.cmd.Start: " (inW (exec.Start c)) ≫= λ _,
      modJ (set_goroutines 2))
    spawned_or_not (w, j).
Proof.
  intros Hc Hcm Hp.
  assert (∀ w', cmds w' = cmds w → executed w' j = false) as Hno.
  { intros w' Hw'. apply (unstarted_executed (w', j)).
    exists c, cm. simpl. by rewrite Hw'. }
  apply wp_bind, wp_wrap, wp_inW.
  pose proof (keeps_Pipe c w) as H1. unfold wp at 1.
  destruct (exec.Pipe c w) as [w1 [[]|e|msg|]]; simpl in H1 |- *;
    try (by apply Hno); try (split; [by apply Hno | done]).
  apply wp_bind, wp_wrap, wp_inW.
  pose proof (keeps_Pipe c w1) as H2. unfold wp at 1.
  destruct (exec.Pipe c w1) as [w2 [[]|e|msg|]]; simpl in H2 |- *;
    try (apply Hno; congruence); try (split; [apply Hno; congruence | done]).
  apply wp_bind, wp_wrap, wp_inW.
  assert (cmds w2 !! c = Some cm) as Hcm2 by congruence.
  unfold wp at 1, exec.Start, get, fault, modify, throw, mbind, M_bind, bind.
  simpl. rewrite Hcm2, Hp. simpl.
  destruct (ctxDone (cancelled w2) (cmd_ctx cm)); simpl.
  { split; [apply Hno; congruence | done]. }
  destruct (faults w2) as [|[e|] fs]; simpl.
  - unfold wp. simpl. unfold executed. simpl. rewrite Hc.
    rewrite list_lookup_insert_eq by (by eapply lookup_lt_Some). done.
  - split; [apply Hno; simpl; congruence | done].
  - unfold wp. simpl. unfold executed. simpl. rewrite Hc.
    rewrite list_lookup_insert_eq by (by eapply lookup_lt_Some). done.
Qed.

Lemma start_cases w j :
  executed w j = false → wp start spawned_or_not (w, j).
Proof.
  intros Hex. unfold start.
  apply wp_bind. unfold wp at 1. simpl.
  apply wp_bind, wp_wrap, wp_inW.
  pose proof (keeps_New (id j) cgroupMount (limits j) w) as HNew.
  unfold wp at 1.
  destruct (cgroupz.New (id j) cgroupMount (limits j) w)
    as [w1 [cg|e|msg|]]; simpl in HNew |- *;
    try (rewrite (executed_cmds w w1 j j) by done; done).
  apply wp_bind. unfold wp at 1. simpl.
  apply wp_bind. unfold wp at 1. simpl.
  apply wp_bind. unfold wp at 1. simpl.
  apply wp_bind. unfold wp at 1. simpl.
  apply wp_bind, wp_modJ.
  eapply start_tail; simpl.
  - reflexivity.
  - rewrite list_lookup_middle by done.
    apply list_lookup_insert_eq. rewrite length_app. simpl. lia.
  - done.
Qed.

Lemma keeps_close w j :
  cmds (close (w, j)).1.1 = cmds w ∧ (close (w, j)).1.2 = j.
Proof.
  unfold close, getJ, inW, zoom, mbind, M_bind, bind. simpl.
  pose proof (keeps_close_all (cleanup j) w) as H.
  by destruct (close_all (cleanup j) w).
Qed.

Lemma Start_executed w j :
  executed w j = true →
  Start (w, j) = ((w, j), rt.Err guard_error).
Proof.
  intros Hex. unfold Start, getJ, getW, mbind, M_bind, bind.
  simpl. by rewrite Hex.
Qed.

Lemma Start_not_executed w j :
  executed w j = false → wp Start spawned_or_not (w, j).
Proof.
  intros Hex. unfold Start.
  apply wp_bind. unfold wp at 1. simpl.
  apply wp_bind. unfold wp at 1. simpl. rewrite Hex.
  apply wp_bind, wp_try.
  eapply wp_mono; [by apply start_cases|].
  intros [w1 j1] [[]|e|msg|] Hr; simpl in Hr |- *; try done.
  destruct Hr as [Hno Hne].
  apply wp_bind, wp_try. unfold wp at 1.
  destruct (keeps_close w1 j1) as [Hc Hj].
  destruct (close (w1, j1)) as [[w2 j2] [errs|e2|msg|]]; simpl in *;
    subst j2; rewrite (executed_cmds w2 w1 j1 j1) in Hno by done; done.
Qed.

Lemma Start_guard w j :
  (Start (w, j)).2 = rt.Err guard_error ↔ executed w j = true.
Proof.
  split.
  - intros Hr. destruct (executed w j) eqn:Hex; [done|].
    pose proof (Start_not_executed w j Hex) as H. unfold wp in H.
    rewrite Hr in H. by destruct H.
  - intros Hex. by rewrite Start_executed.
Qed.

Lemma Start_runs_guard envs : ∀ st k r,
  Forall (λ env : world → world, ∀ w, cmds (env w) = cmds w) envs →
  Start_runs envs st !! k = Some r →
  (r = rt.Err guard_error ↔
   executed st.1 st.2 = true ∨
   ∃ i, (i < k)%nat ∧ Start_runs envs st !! i = Some (Ok ())).
Proof.
  induction envs as [|env envs IH]; intros [w j] k r Henvs Hk; [done|].
  apply Forall_cons in Henvs as [Henv Henvs]. simpl in Hk |- *.
  assert (executed (env w) j = executed w j) as Hsame
    by (by apply executed_cmds).
  pose proof (Start_guard (env w) j) as Hguard.
  destruct (executed w j) eqn:Hex.
  - rewrite Start_executed in Hk |- * by done.
    destruct k as [|k]; simpl in Hk.
    + injection Hk as <-. split; [by left|done].
    + apply IH in Hk; [|done]. simpl in Hk. rewrite Hsame in Hk.
      split; [by left|]. intros _. apply Hk. by left.
  - pose proof (Start_not_executed (env w) j Hsame) as Hs. unfold wp in Hs.
    destruct (Start (env w, j)) as [st' r0]. simpl in Hs, Hguard.
    destruct k as [|k]; simpl in Hk.
    + injection Hk as <-. rewrite Hguard, Hsame.
      split; [done|]. intros [?|(i & Hi & _)]; [done|lia].
    + apply IH in Hk; [|done]. rewrite Hk. clear Hk.
      split.
      * intros [Hex'|(i & Hi & Hrun)].
        -- right. exists 0%nat. split; [lia|]. simpl.
           destruct r0 as [[]|e|msg|]; simpl in Hs;
             [done | destruct Hs; congruence | congruence | congruence].
        -- right. exists (S i). split; [lia|done].
      * intros [?|(i & Hi & Hrun)]; [done|].
        destruct i as [|i]; simpl in Hrun.
        -- injection Hrun as ->. by left.
        -- right. exists i. split; [lia|done].
Qed.

(** ** A world without faults *)

(** A world in which no system call is refused and no context is cancelled. *)
Definition quiet (w : world) : Prop := faults w = [] ∧ cancelled w = ∅.

(** Code that succeeds in a quiet world and leaves it quiet. *)
Definition good {A} (c : M world A) : Prop :=
  ∀ w, quiet w → (∃ a, (c w).2 = Ok a) ∧ quiet (c w).1.

Lemma good_bind {A B} (c : M world A) (k : A → M world B) :
  good c → (∀ a, good (k a)) → good (c ≫= k).
Proof.
  intros Hc Hk w Hw. unfold mbind, M_bind, bind.
  destruct (Hc w Hw) as [[a Ha] Hq]. destruct (c w) as [w1 r]. simpl in *.
  subst r. by apply Hk.
Qed.
Lemma good_mret {A} (a : A) : good (mret a).
Proof. intros w Hw. split; [by eexists|done]. Qed.
Lemma good_wrap {A} pre (c : M world A) : good c → good (wrap pre c).
Proof.
  intros Hc w Hw. destruct (Hc w Hw) as [[a Ha] Hq]. unfold wrap.
  destruct (c w) as [w1 r]. simpl in *. subst r. split; [by eexists|done].
Qed.
Lemma good_WriteFile p c : good (WriteFile p c).
Proof.
  intros w [Hf Hc]. unfold WriteFile, fault, modify, mbind, M_bind, bind.
  rewrite Hf. simpl. split; [by eexists|done].
Qed.
Lemma good_MkdirAll p : good (MkdirAll p).
Proof.
  intros w [Hf Hc]. unfold MkdirAll, fault, modify, mbind, M_bind, bind.
  rewrite Hf. simpl. split; [by eexists|done].
Qed.
Lemma good_Pipe c : good (exec.Pipe c).
Proof.
  intros w [Hf Hc]. unfold exec.Pipe, fault, mbind, M_bind, bind.
  rewrite Hf. simpl. split; [by eexists|done].
Qed.
Lemma good_deferred {A} p (c : M world A) : good c → good (cgroupz.deferred_cleanUp p c).
Proof.
  intros Hc w Hw. destruct (Hc w Hw) as [[a Ha] Hq]. unfold cgroupz.deferred_cleanUp.
  destruct (c w) as [w1 r]. simpl in *. subst r. split; [by eexists|done].
Qed.
Lemma good_New n m l : good (cgroupz.New n m l).
Proof.
  unfold cgroupz.New.
  repeat first [ apply good_WriteFile | apply good_MkdirAll | apply good_wrap
               | apply good_deferred | apply good_mret
               | apply good_bind; [|intros ?]
               | match goal with |- good (if ?b then _ else _) => destruct b
                               | |- good (match ?x with _ => _ end) => destruct x end
               | progress cbv zeta ].
Qed.

Lemma ctxDone_empty c : ctxDone ∅ c = false.
Proof. induction c as [|i p IH]; simpl; [done|]. rewrite IH. by rewrite bool_decide_eq_false_2 by set_solver. Qed.

Lemma wp_good {A} (c : M world A) (Q : world * Job → res A → Prop) w j :
  good c → quiet w → (∀ w' a, quiet w' → cmds w' = cmds w → Q (w', j) (Ok a)) → keeps_cmds c →
  wp (inW c) Q (w, j).
Proof.
  intros Hc Hw HQ Hk. apply wp_inW. unfold wp.
  destruct (Hc w Hw) as [[a Ha] Hq]. specialize (Hk w).
  destruct (c w) as [w1 r]. simpl in *. subst r. by apply HQ.
Qed.

Definition quiet_ok (st : world * Job) (r : res unit) : Prop :=
  r = Ok () ∧ quiet st.1.

Lemma start_quiet w j : quiet w → wp start quiet_ok (w, j).
Proof.
  intros Hw. unfold start.
  apply wp_bind. unfold wp at 1. simpl.
  apply wp_bind, wp_wrap.
  apply wp_good; [apply good_New | done | | apply keeps_New].
  intros w1 cg Hw1 _.
  apply wp_bind. unfold wp at 1. simpl.
  apply wp_bind. unfold wp at 1. simpl.
  apply wp_bind. unfold wp at 1. simpl.
  apply wp_bind. unfold wp at 1. simpl.
  apply wp_bind, wp_modJ.
  match goal with |- wp _ _ (?w2, ?j2) => set (wa := w2); set (ja := j2) end.
  assert (quiet wa) as Hwa by (destruct Hw1; done).
  assert (∃ cm, cmds wa !! length (cmds w1) = Some cm ∧ Process cm = None) as (cm & Hcm & Hp).
  { eexists. split.
    - simpl. rewrite list_lookup_middle by done.
      apply list_lookup_insert_eq. rewrite length_app. simpl. lia.
    - done. }
  clearbody wa ja.
  apply wp_bind, wp_wrap.
  apply wp_good; [apply good_Pipe | done | | apply keeps_Pipe].
  intros w3 [] Hw3 Hc3.
  apply wp_bind, wp_wrap.
  apply wp_good; [apply good_Pipe | done | | apply keeps_Pipe].
  intros w4 [] Hw4 Hc4.
  apply wp_bind, wp_wrap, wp_inW.
  assert (cmds w4 !! length (cmds w1) = Some cm) as Hcm4 by congruence.
  destruct Hw4 as [Hf4 Hcan4].
  unfold wp at 1, exec.Start, get, fault, modify, throw, mbind, M_bind, bind.
  simpl. rewrite Hcm4, Hp. simpl. rewrite Hcan4, ctxDone_empty, Hf4. simpl.
  done.
Qed.

Lemma Start_quiet w j :
  quiet w → executed w j = false → wp Start quiet_ok (w, j).
Proof.
  intros Hw Hex. unfold Start.
  apply wp_bind. unfold wp at 1. simpl.
  apply wp_bind. unfold wp at 1. simpl. rewrite Hex.
  apply wp_bind, wp_try.
  eapply wp_mono; [by apply start_quiet|].
  intros [w1 j1] r [-> Hq]. done.
Qed.

Lemma New_not_executed uuid ctx command limits w0 w j :
  New uuid ctx command limits w0 = (w, Ok j) → executed w j = false.
Proof. by intros [= <- <-]. Qed.

(** C10.  [Start] returns the error "process already executed" exactly
    when the command of the job is set and has its [Process]; and for a job
    that was not executed (as every job from [New] is), in a run of [Start]
    calls between which the outside does anything that leaves the
    [exec.Cmd] objects alone, a call returns that error exactly when an
    earlier call of the run returned nil, that is when an earlier call has
    spawned the child.  A call that failed before the child was spawned
    leaves the guard open, and the next call runs [start] again. *)
Theorem Start_guard_history (envs : list (world → world)) (w : world)
    (j : Job) :
  ((Start (w, j)).2 = rt.Err guard_error ↔ executed w j = true) ∧
  (executed w j = false →
   Forall (λ env : world → world, ∀ w, cmds (env w) = cmds w) envs →
   ∀ k r, Start_runs envs (w, j) !! k = Some r →
     (r = rt.Err guard_error ↔
      ∃ i, (i < k)%nat ∧ Start_runs envs (w, j) !! i = Some (Ok ()))).
Proof.
  split; [apply Start_guard|].
  intros Hex Henvs k r Hk.
  rewrite (Start_runs_guard envs (w, j) k r Henvs Hk). simpl. rewrite Hex.
  split; [by intros [?|?] | by right].
Qed.

(** A job from [New] and three calls of [Start]: before the first the
    system is set to refuse the next call, which is the write of
    [cgroup.subtree_control]. *)
Definition three_starts : list (world → world) :=
  [ set_faults [Some "read-only file system"]; λ w, w; λ w, w ].

Definition fresh_job : world * Job :=
  let r := New "6ba7b810" Background ["sleep"; "5"]
             {| cgroupz.CpuWeight := 50; cgroupz.MaxMem := 100000000;
                cgroupz.MaxIO := None |} empty_world in
  (r.1, {| Err := ""; Status := StatusUnknown; cmd := None;
           command := ["sleep"; "5"]; ctx := Background; id := "6ba7b810";
           limits := {| cgroupz.CpuWeight := 50; cgroupz.MaxMem := 100000000;
                        cgroupz.MaxIO := None |};
           log := 0; cleanup := [CloseLog 0]; goroutines := 0 |}).

Example fresh_job_New :
  New "6ba7b810" Background ["sleep"; "5"]
    {| cgroupz.CpuWeight := 50; cgroupz.MaxMem := 100000000;
       cgroupz.MaxIO := None |} empty_world = (fresh_job.1, Ok fresh_job.2).
Proof. reflexivity. Qed.

Lemma Start_guard_history_witness :
  Start_runs three_starts fresh_job =
    [ rt.Err "cgroupz.New: cgroup.subtree_control write file: read-only file system";
      Ok ();
      rt.Err guard_error ] ∧
  ∃ i, (i < 2)%nat ∧ Start_runs three_starts fresh_job !! i = Some (Ok ()).
Proof.
  assert (Start_runs three_starts fresh_job =
    [ rt.Err "cgroupz.New: cgroup.subtree_control write file: read-only file system";
      Ok (); rt.Err guard_error ]) as Hruns by (vm_compute; reflexivity).
  split; [exact Hruns|].
  apply (proj2 (Start_guard_history three_starts fresh_job.1 fresh_job.2)
           eq_refl) with (r := rt.Err guard_error).
  - repeat constructor.
  - change (fresh_job.1, fresh_job.2) with fresh_job. rewrite Hruns. reflexivity.
  - reflexivity.
Defined.

End jobs_facts.

(* ===================================================================== *)
(** * Properties of the registry *)
(* ===================================================================== *)

Module service_facts.
Import rt rt_facts jobs_facts service.

(** The context and the job that [StartJob] makes before it touches the
    registry, and the world after that. *)
Definition job_ctx (ctx : Ctx) (w : world) : Ctx := WithCancel (next_ctx w) ctx.

Definition new_job (uuid : string) (ctx : Ctx) (cmdStr : list string)
    (limits : cgroupz.ResourceLimit) (w : world) : jobs.Job :=
  {| jobs.Err := ""; jobs.Status := jobs.StatusUnknown; jobs.cmd := None;
     jobs.command := cmdStr; jobs.ctx := job_ctx ctx w; jobs.id := uuid;
     jobs.limits := limits; jobs.log := length (logs w);
     jobs.cleanup := [jobs.CloseLog (length (logs w))];
     jobs.goroutines := 0 |}.

Definition new_world (w : world) : world :=
  set_logs (λ ls, ls ++ [bufferz.NewMultiReaderBuffer])
    (set_next_ctx (S (next_ctx w)) w).

Definition new_record (uuid : string) (ctx : Ctx) (cmdStr : list string)
    (limits : cgroupz.ResourceLimit) (w : world) (s : Service) : JobRecord :=
  {| ID := wrap32 (ider_id s + 1);
     Job := new_job uuid ctx cmdStr limits w;
     ctx := job_ctx ctx w |}.

(** [StartJob] on a registry whose mutex is free and where the next id is
    not taken: the record is put into the map, and what happens then is up
    to [job.Start()]. *)
Lemma StartJob_unfold uuid ctx cmdStr limits w s :
  locked s = false →
  store s !! wrap32 (ider_id s + 1) = None →
  let record := new_record uuid ctx cmdStr limits w s in
  let s1 := set_store (<[ID record := record]> (store s))
              (set_ider_id (ID record) s) in
  StartJob uuid ctx cmdStr limits (w, s) =
    match jobs.Start (new_world w, Job record) with
    | ((w', job'), Ok _) =>
        ((w', set_waiters (waiters s ++
                 [{| w_id := ID record; w_job := job'; w_done := false |}])
                (set_wg (S (wg s)) s1)),
         Ok record)
    | ((w', _), rt.Err e) => ((w', s1), rt.Err e)
    | ((w', _), Panic msg) => ((w', s1), Panic msg)
    | ((w', _), Block) => ((w', s1), Block)
    end.
Proof.
  intros Hlock Hfree record s1. subst record s1.
  destruct s as [i lk st n pc ws]. simpl in Hlock, Hfree. subst lk.
  unfold StartJob, nextID, Lock, Unlock, onJob, inW, zoom, getS, modS,
    newContext, jobs.New, mbind, M_bind, bind, mret, M_ret, ret, throw. simpl.
  rewrite Hfree. unfold new_record, new_job, new_world, job_ctx. simpl.
  match goal with
  | |- context [jobs.Start ?x] =>
      destruct (jobs.Start x) as [[w' job'] [[]|e|msg|]]
  end; reflexivity.
Qed.

Lemma GetJob_found ctx id w s record :
  locked s = false → store s !! id = Some record →
  GetJob ctx id (w, s) = ((w, s), Ok record).
Proof.
  intros Hlock Hfound. destruct s as [i lk st n pc ws]. simpl in *. subst lk.
  unfold GetJob, Lock, Unlock, getS, modS, mbind, M_bind, bind, mret, M_ret,
    ret. simpl. by rewrite Hfound.
Qed.

(** C5, as the code has it.  When [job.Start()] fails in a [StartJob] call
    (on a registry whose mutex is free and where the next id is not taken),
    [StartJob] returns the error of [job.Start()], and the record it had put
    into the map under the new id stays there: the map is the old map with
    that record added, and [GetJob] with the new id returns the record. *)
Theorem failed_start_keeps_record uuid ctx cmdStr limits w s w' job' e :
  locked s = false →
  store s !! wrap32 (ider_id s + 1) = None →
  let record := new_record uuid ctx cmdStr limits w s in
  jobs.Start (new_world w, Job record) = ((w', job'), rt.Err e) →
  ∃ s', StartJob uuid ctx cmdStr limits (w, s) = ((w', s'), rt.Err e) ∧
        store s' = <[ID record := record]> (store s) ∧
        ∀ ctx', GetJob ctx' (ID record) (w', s') = ((w', s'), Ok record).
Proof.
  intros Hlock Hfree record HStart.
  rewrite StartJob_unfold by done. fold record. rewrite HStart.
  eexists. split; [reflexivity|]. split; [done|].
  intros ctx'. apply GetJob_found; simpl; [done|]. apply lookup_insert_eq.
Qed.

(** A fresh service, and a world in which the next system call (the write
    of [cgroup.subtree_control]) is refused. *)
Definition service0 : Service :=
  {| ider_id := 0; locked := false; store := ∅; wg := 0;
     parentCtx := WithCancel 0 Background; waiters := [] |}.

Definition world0 : world := set_next_ctx 1 empty_world.

Example NewService_fresh :
  NewService Background empty_world = (world0, Ok service0).
Proof. reflexivity. Qed.

Definition refusing : world :=
  set_faults [Some "read-only file system"] world0.

Definition default_limits : cgroupz.ResourceLimit :=
  {| cgroupz.CpuWeight := 100; cgroupz.MaxMem := 100000000;
     cgroupz.MaxIO := None |}.

Definition failed_start : (world * Service) * res JobRecord :=
  StartJob "6ba7b810" Background ["ls"] default_limits (refusing, service0).

(** The claim C5 fails here: [StartJob] returns the error of the failed
    [job.Start()], and [GetJob] with the id 1 that was drawn finds a record
    instead of reporting that the job is not found. *)
Lemma failed_start_counterexample :
  failed_start.2 =
    rt.Err "cgroupz.New: cgroup.subtree_control write file: read-only file system" ∧
  (GetJob Background 1 failed_start.1).2 =
    Ok (new_record "6ba7b810" Background ["ls"] default_limits refusing service0) ∧
  (GetJob Background 1 failed_start.1).2 ≠ rt.Err "job not found".
Proof. vm_compute. done. Qed.

Lemma failed_start_keeps_record_witness :
  ∃ s', StartJob "6ba7b810" Background ["ls"] default_limits (refusing, service0)
          = ((failed_start.1.1, s'),
             rt.Err "cgroupz.New: cgroup.subtree_control write file: read-only file system") ∧
        store s' = <[1 := new_record "6ba7b810" Background ["ls"] default_limits
                            refusing service0]> ∅ ∧
        ∀ ctx', GetJob ctx' 1 (failed_start.1.1, s')
                = ((failed_start.1.1, s'),
                   Ok (new_record "6ba7b810" Background ["ls"] default_limits
                         refusing service0)).
Proof.
  apply (failed_start_keeps_record "6ba7b810" Background ["ls"] default_limits
           refusing service0 failed_start.1.1
           (jobs.Start (new_world refusing,
                        new_job "6ba7b810" Background ["ls"] default_limits refusing)).1.2).
  - reflexivity.
  - reflexivity.
  - vm_compute. reflexivity.
Defined.

(** ** What leaves the map and the counter alone *)

(** Code of the service that changes neither the map nor the id counter. *)
Definition frame {A} (c : SM A) : Prop :=
  ∀ st, store (c st).1.2 = store st.2 ∧ ider_id (c st).1.2 = ider_id st.2.

Lemma frame_bind {A B} (c : SM A) (k : A → SM B) :
  frame c → (∀ a, frame (k a)) → frame (c ≫= k).
Proof.
  intros Hc Hk st. unfold mbind, M_bind, bind.
  specialize (Hc st). destruct (c st) as [st1 [a|e|msg|]]; try done.
  specialize (Hk a st1). simpl in *. destruct Hk as [-> ->]. done.
Qed.

Lemma frame_mret {A} (a : A) : frame (mret a : SM A).
Proof. done. Qed.
Lemma frame_throw {A} e : frame (throw e : SM A).
Proof. done. Qed.
Lemma frame_block {A} : frame (block : SM A).
Proof. done. Qed.
Lemma frame_panic {A} msg : frame (panic msg : SM A).
Proof. done. Qed.
Lemma frame_getS : frame getS.
Proof. done. Qed.
Lemma frame_getW : frame getW.
Proof. done. Qed.
Lemma frame_inW {A} (c : M world A) : frame (inW c).
Proof. intros st. unfold inW, zoom. by destruct (c st.1). Qed.
Lemma frame_onJob {A} job (c : jobs.JM A) : frame (onJob job c).
Proof.
  intros st. unfold onJob. by destruct (c (st.1, job)) as [[w j] [?|?|?|]].
Qed.
Lemma frame_try {A} (c : SM A) : frame c → frame (try c).
Proof.
  intros Hc st. specialize (Hc st). unfold try.
  by destruct (c st) as [st1 [?|?|?|]].
Qed.
Lemma frame_wrap {A} pre (c : SM A) : frame c → frame (wrap pre c).
Proof.
  intros Hc st. specialize (Hc st). unfold wrap.
  by destruct (c st) as [st1 [?|?|?|]].
Qed.
Lemma frame_modS (f : Service → Service) :
  (∀ s, store (f s) = store s ∧ ider_id (f s) = ider_id s) → frame (modS f).
Proof. intros Hf st. apply Hf. Qed.

Create HintDb frame.
#[local] Hint Resolve frame_mret frame_throw frame_block frame_panic
  frame_getS frame_getW frame_inW frame_onJob frame_try frame_wrap : frame.

Ltac frame_step :=
  lazymatch goal with
  | |- frame (_ ≫= _) => apply frame_bind; [|intros ?]
  | |- frame (modS _) => apply frame_modS; intros ?; done
  | |- frame (match ?x with _ => _ end) => destruct x
  | |- frame (if ?x then _ else _) => destruct x
  | |- frame (let _ := _ in _) => cbv zeta
  | |- frame _ => solve [auto with frame]
  end.

Lemma frame_Lock : frame Lock.
Proof. unfold Lock. repeat frame_step. Qed.
Lemma frame_Unlock : frame Unlock.
Proof. unfold Unlock. repeat frame_step. Qed.
#[local] Hint Resolve frame_Lock frame_Unlock : frame.

Lemma frame_GetJob ctx jobID : frame (GetJob ctx jobID).
Proof. unfold GetJob. repeat frame_step. Qed.
#[local] Hint Resolve frame_GetJob : frame.

Lemma frame_StopJob ctx jobID pick : frame (StopJob ctx jobID pick).
Proof. unfold StopJob. repeat frame_step. Qed.

Lemma frame_StreamJob ctx jobID pick writer :
  frame (StreamJob ctx jobID pick writer).
Proof. unfold StreamJob. repeat frame_step. Qed.

Lemma frame_waiter_run k io r : frame (waiter_run k io r).
Proof. unfold waiter_run. repeat frame_step. Qed.

Lemma frame_Shutdown : frame Shutdown.
Proof. unfold Shutdown. repeat frame_step. Qed.

(** Every operation but [StartJob] is such code. *)
Lemma apply_op_frame o st :
  (∀ uuid ctx cmdStr limits, o ≠ OpStart uuid ctx cmdStr limits) →
  store (apply_op o st).1.2 = store st.2 ∧
  ider_id (apply_op o st).1.2 = ider_id st.2 ∧
  (apply_op o st).2 = None.
Proof.
  intros Hne. destruct o; simpl.
  - by destruct (Hne uuid ctx0 cmdStr limits).
  - by destruct (frame_GetJob ctx0 jobID st).
  - by destruct (frame_StopJob ctx0 jobID pick st).
  - by destruct (frame_StreamJob ctx0 jobID pick writer st).
  - by destruct (frame_waiter_run k io r st).
  - by destruct (frame_Shutdown st).
  - by destruct (frame_inW (cancel ctx0) st).
  - done.
Qed.

(** ** [StartJob] in general *)

(** Whatever state the registry is in: the counter moves on by one, the map
    stays or gets the new record under the new id, which was free, and a
    record is returned only in the second case. *)
Lemma StartJob_cases uuid ctx cmdStr limits w s :
  let r := StartJob uuid ctx cmdStr limits (w, s) in
  let record := new_record uuid ctx cmdStr limits w s in
  ider_id r.1.2 = ID record ∧
  (store r.1.2 = store s ∧ (∀ rec, r.2 ≠ Ok rec) ∨
   store s !! ID record = None ∧
   store r.1.2 = <[ID record := record]> (store s) ∧
   (∀ rec, r.2 = Ok rec → rec = record)).
Proof.
  intros r record. subst r.
  destruct (locked s) eqn:Hlock.
  - destruct s as [i lk st n pc ws]. simpl in Hlock. subst lk.
    split; [reflexivity|]. left. split; [reflexivity|]. intros rec. discriminate.
  - destruct (store s !! wrap32 (ider_id s + 1)) as [old|] eqn:Hfree.
    + destruct s as [i lk st n pc ws]. simpl in Hlock, Hfree. subst lk.
      unfold StartJob, nextID, Lock, Unlock, onJob, inW, zoom, getS, modS,
        newContext, jobs.New, mbind, M_bind, bind, mret, M_ret, ret, throw.
      simpl. rewrite Hfree. simpl.
      split; [reflexivity|]. left. split; [reflexivity|]. intros rec. discriminate.
    + rewrite StartJob_unfold by done. fold record.
      destruct (jobs.Start (new_world w, Job record)) as [[w' job'] [[]|e|msg|]];
        simpl; (split; [reflexivity|]); right;
        (split; [exact Hfree|]); (split; [reflexivity|]);
        intros rec; congruence.
Qed.

Lemma wrap32_small z : - 2 ^ 31 ≤ z < 2 ^ 31 → wrap32 z = z.
Proof. intros Hz. unfold wrap32. rewrite Z.mod_small; lia. Qed.

(** ** Invariants of a run *)

(** After [n] calls of [StartJob], with [ids] the ids returned so far: the
    ids are pairwise different and in the map, every record of the map holds
    the [Job] value as [jobs.New] made it (its [cmd] is nil), and as long as
    fewer than 2^31 calls were made the counter is [n] and the ids were
    returned in increasing order. *)
Record run_inv (s : Service) (ids : list Z) (n : nat) : Prop := mkRunInv {
  inv_NoDup : NoDup ids;
  inv_stored : ∀ i, i ∈ ids → is_Some (store s !! i);
  inv_stale : ∀ i rec, store s !! i = Some rec → jobs.cmd (Job rec) = None;
  inv_counter : Z.of_nat n < 2 ^ 31 →
    ider_id s = Z.of_nat n ∧
    StronglySorted Z.lt ids ∧
    Forall (λ i, i ≤ ider_id s) ids
}.

Lemma apply_op_inv o st ids n :
  run_inv st.2 ids n →
  run_inv (apply_op o st).1.2
    (ids ++ match (apply_op o st).2 with Some i => [i] | None => [] end)
    (n + starts [o]).
Proof.
  intros [HND Hst Hstale Hcnt].
  assert ((∃ uuid ctx cmdStr limits, o = OpStart uuid ctx cmdStr limits) ∨
          ¬ (∃ uuid ctx cmdStr limits, o = OpStart uuid ctx cmdStr limits))
    as [(uuid & ctx & cmdStr & limits & ->)|Hne].
  { destruct o; first [left; by eauto | right; by intros (? & ? & ? & ? & ?)]. }
  - destruct st as [w s]. cbn [fst snd] in *.
    pose proof (StartJob_cases uuid ctx cmdStr limits w s) as [Hid Hcases].
    cbv zeta in Hid, Hcases.
    set (record := new_record uuid ctx cmdStr limits w s) in *.
    assert (Z.of_nat (n + 1) < 2 ^ 31 →
            ID record = Z.of_nat (n + 1) ∧ ider_id s = Z.of_nat n) as Hnew.
    { intros Hn. destruct Hcnt as [Hc _]; [lia|]. split; [|done].
      unfold record, new_record. cbn [ID]. rewrite Hc, wrap32_small; lia. }
    unfold apply_op, starts.
    destruct (StartJob uuid ctx cmdStr limits (w, s)) as [[w' s'] r] eqn:HSJ.
    cbn [fst snd] in *.
    assert (Z.of_nat (n + 1) < 2 ^ 31 →
            ider_id s' = Z.of_nat (n + 1) ∧ StronglySorted Z.lt ids ∧
            Forall (λ i, i < ider_id s') ids) as Hcnt'.
    { intros Hn. destruct (Hnew Hn) as [Hidn Hold].
      destruct Hcnt as (_ & Hsorted & Hle); [lia|].
      rewrite Hid, Hidn. split; [done|]. split; [done|].
      eapply Forall_impl; [exact Hle|]. cbn beta. intros. lia. }
    destruct Hcases as [[Hsame Hnot]|(Hfree & Hins & Hrec)].
    + assert (match r with Ok record => ((w', s'), Some (ID record)) | _ => ((w', s'), None) end
              = ((w', s'), None)) as ->.
      { destruct r; try done. by destruct (Hnot a). }
      cbn [fst snd]. rewrite app_nil_r. split; try done.
      * intros i Hi. rewrite Hsame. by apply Hst.
      * intros i rec. rewrite Hsame. apply Hstale.
      * intros Hn. destruct (Hcnt' Hn) as (? & ? & Hlt).
        split; [done|]. split; [done|].
        eapply Forall_impl; [exact Hlt|]. cbn beta. intros. lia.
    + assert (∀ i, i ∈ ids → is_Some (store s' !! i)) as Hst'.
      { intros i Hi. rewrite Hins. destruct (decide (ID record = i)) as [->|].
        - rewrite lookup_insert_eq. eauto.
        - rewrite lookup_insert_ne by done. by apply Hst. }
      assert (∀ i rec, store s' !! i = Some rec → jobs.cmd (Job rec) = None)
        as Hstale'.
      { intros i rec. rewrite Hins. destruct (decide (ID record = i)) as [->|].
        - rewrite lookup_insert_eq. by intros [= <-].
        - rewrite lookup_insert_ne by done. apply Hstale. }
      assert (ID record ∉ ids) as Hfresh.
      { intros Hin. apply Hst in Hin as [? Hin]. congruence. }
      destruct r as [rec|e|msg|]; cbn [fst snd]; rewrite ?app_nil_r.
      2-4: split; try done; intros Hn; destruct (Hcnt' Hn) as (? & ? & Hlt);
        (split; [done|]); (split; [done|]);
        eapply Forall_impl; [exact Hlt|]; cbn beta; intros; lia.
      rewrite (Hrec rec eq_refl).
      split.
      * apply NoDup_app. split; [done|]. split; [|apply NoDup_singleton].
        intros i Hi ->%list_elem_of_singleton. done.
      * intros i [Hi| ->%list_elem_of_singleton]%elem_of_app; [by apply Hst'|].
        rewrite Hins, lookup_insert_eq. eauto.
      * done.
      * intros Hn. destruct (Hcnt' Hn) as (Hc & Hsorted & Hlt).
        destruct (Hnew Hn) as [Hidn _].
        split; [done|]. split.
        -- apply StronglySorted_app_2; [|done|repeat constructor].
           intros x1 x2 Hx1 ->%list_elem_of_singleton.
           rewrite Forall_forall in Hlt. specialize (Hlt x1 Hx1). lia.
        -- apply Forall_app. split.
           ++ eapply Forall_impl; [exact Hlt|]. cbn beta. intros. lia.
           ++ apply Forall_singleton. lia.
  - destruct (apply_op_frame o st) as (Hs & Hi & Hr).
    { intros ? ? ? ? ->. apply Hne. eauto. }
    rewrite Hr, app_nil_r.
    replace (n + starts [o])%nat with n
      by (destruct o; simpl; first [lia | exfalso; apply Hne; by eauto]).
    split; try done.
    + intros i Hin. rewrite Hs. by apply Hst.
    + intros i rec. rewrite Hs. apply Hstale.
    + by rewrite Hi.
Qed.

Lemma run_run_inv ops : ∀ st ids n,
  run_inv st.2 ids n →
  run_inv (run ops st ids).1.2 (run ops st ids).2 (n + starts ops).
Proof.
  induction ops as [|o ops IH]; intros st ids n Hinv.
  - simpl. by rewrite Nat.add_0_r.
  - pose proof (apply_op_inv o st ids n Hinv) as Hstep.
    replace (n + starts (o :: ops))%nat with (n + starts [o] + starts ops)%nat
      by (destruct o; simpl; lia).
    cbn [run]. destruct (apply_op o st) as [st' r]. cbn [fst snd] in Hstep.
    by apply IH.
Qed.

Lemma run_inv_fresh ctx w0 w s :
  NewService ctx w0 = (w, Ok s) → run_inv s [] 0.
Proof.
  intros [= <- <-]. split; simpl; try done.
  - constructor.
  - intros i Hi. by apply elem_of_nil in Hi.
  - intros _. split; [done|]. split; constructor.
Qed.

(** ** The ids of [StartJob] *)

(** C8, as the code has it.  In every run of a fresh service the ids that
    the successful [StartJob] calls return are pairwise different; and they
    come in strictly increasing order as long as the run has fewer than
    2^31 [StartJob] calls, the [int32] counter not having wrapped around
    yet. *)
Theorem start_ids_distinct (ctx : Ctx) (w0 w : world) (s : Service)
    (ops : list op) :
  NewService ctx w0 = (w, Ok s) →
  NoDup (run ops (w, s) []).2 ∧
  (Z.of_nat (starts ops) < 2 ^ 31 → StronglySorted Z.lt (run ops (w, s) []).2).
Proof.
  intros Hnew. apply run_inv_fresh in Hnew.
  pose proof (run_run_inv ops (w, s) [] 0 Hnew) as [HND _ _ Hcnt].
  split; [done|]. intros Hn. by apply Hcnt.
Qed.

Definition two_starts : list op :=
  [ OpStart "6ba7b810" Background ["echo"; "hello"] default_limits;
    OpGet Background 1;
    OpStart "6ba7b811" Background ["sleep"; "5"] default_limits ].

Lemma start_ids_distinct_witness :
  NoDup (run two_starts (world0, service0) []).2 ∧
  StronglySorted Z.lt (run two_starts (world0, service0) []).2.
Proof.
  destruct (start_ids_distinct Background empty_world world0 service0 two_starts)
    as [H1 H2]; [reflexivity|].
  split; [exact H1|]. apply H2. vm_compute. reflexivity.
Defined.

Example two_starts_ids : (run two_starts (world0, service0) []).2 = [1; 2].
Proof. vm_compute. reflexivity. Qed.

(** The counter of a fresh service after [n] calls of [StartJob], however
    they ended, is [n], up to the largest [int32]. *)
Lemma counter_after_starts ctx w0 w s ops :
  NewService ctx w0 = (w, Ok s) →
  Z.of_nat (starts ops) < 2 ^ 31 →
  ider_id (run ops (w, s) []).1.2 = Z.of_nat (starts ops).
Proof.
  intros Hnew Hn. apply run_inv_fresh in Hnew.
  pose proof (run_run_inv ops (w, s) [] 0 Hnew) as [_ _ _ Hcnt].
  by apply Hcnt.
Qed.

(** In a run of a fresh service with 2^31 - 2 calls of [StartJob], two
    more calls that succeed return the largest and then the smallest
    [int32]. *)
Lemma ids_wrap_after_run ctx w0 w s ops ua ca cmda la ub cb cmdb lb
    st1 st2 ra rb :
  NewService ctx w0 = (w, Ok s) →
  Z.of_nat (starts ops) = 2 ^ 31 - 2 →
  StartJob ua ca cmda la (run ops (w, s) []).1 = (st1, Ok ra) →
  StartJob ub cb cmdb lb st1 = (st2, Ok rb) →
  ID ra = 2147483647 ∧ ID rb = -2147483648.
Proof.
  intros Hnew Hn Ha Hb.
  pose proof (counter_after_starts ctx w0 w s ops Hnew) as Hcnt.
  destruct (run ops (w, s) []).1 as [w1 s1]. simpl in Hcnt.
  pose proof (StartJob_cases ua ca cmda la w1 s1) as [Hid1 Hc1].
  rewrite Ha in Hid1, Hc1. cbn [fst snd] in Hid1, Hc1.
  destruct Hc1 as [[_ Hnot]|(_ & _ & Hrec)]; [by destruct (Hnot ra)|].
  rewrite (Hrec ra eq_refl) in *. clear Hrec.
  destruct st1 as [w2 s2].
  pose proof (StartJob_cases ub cb cmdb lb w2 s2) as [_ Hc2].
  rewrite Hb in Hc2. cbn [fst snd] in Hc2.
  destruct Hc2 as [[_ Hnot]|(_ & _ & Hrec)]; [by destruct (Hnot rb)|].
  rewrite (Hrec rb eq_refl). cbn [ID new_record fst snd] in *.
  rewrite Hid1, Hcnt by lia. rewrite Hn. split; reflexivity.
Qed.

(** ** A run that wraps the counter around *)

Lemma StartJob_quiet uuid ctx cmdStr limits w s :
  quiet w → locked s = false →
  store s !! wrap32 (ider_id s + 1) = None →
  ∃ w' s',
    StartJob uuid ctx cmdStr limits (w, s)
      = ((w', s'), Ok (new_record uuid ctx cmdStr limits w s)) ∧
    quiet w' ∧ locked s' = false ∧ ider_id s' = wrap32 (ider_id s + 1) ∧
    store s' = <[wrap32 (ider_id s + 1) := new_record uuid ctx cmdStr limits w s]>
                 (store s).
Proof.
  intros Hw Hlock Hfree. rewrite StartJob_unfold by done.
  assert (wp jobs.Start quiet_ok (new_world w, new_job uuid ctx cmdStr limits w))
    as HStart by (apply Start_quiet; [by destruct Hw | done]).
  unfold wp, quiet_ok in HStart. cbn [Job new_record].
  destruct (jobs.Start (new_world w, new_job uuid ctx cmdStr limits w))
    as [[w' j'] r].
  cbn [fst snd] in HStart. destruct HStart as [-> Hq].
  eexists _, _. split; [reflexivity|]. simpl. split; [done|].
  split; [done|]. done.
Qed.

Lemma run_app ops1 : ∀ ops2 st ids,
  run (ops1 ++ ops2) st ids =
  run ops2 (run ops1 st ids).1 (run ops1 st ids).2.
Proof.
  induction ops1 as [|o ops1 IH]; intros ops2 st ids; [done|].
  cbn [run app]. destruct (apply_op o st) as [st' r]. apply IH.
Qed.

(** [n] calls of [StartJob], each with a uuid of its own. *)
Definition many_starts (n : nat) : list op :=
  (λ i : nat, OpStart (Itoa (Z.of_nat i)) Background ["true"] default_limits)
    <$> seq 0 n.

Lemma many_starts_S n :
  many_starts (S n) =
  many_starts n ++ [OpStart (Itoa (Z.of_nat n)) Background ["true"] default_limits].
Proof. unfold many_starts. by rewrite seq_S, fmap_app. Qed.

Lemma many_starts_run n :
  Z.of_nat n < 2 ^ 31 →
  let r := run (many_starts n) (world0, service0) [] in
  quiet r.1.1 ∧ locked r.1.2 = false ∧ ider_id r.1.2 = Z.of_nat n ∧
  (∀ i, is_Some (store r.1.2 !! i) → 1 ≤ i ≤ Z.of_nat n) ∧
  r.2 = Z.of_nat <$> seq 1 n.
Proof.
  induction n as [|n IH]; intros Hn; cbv zeta.
  - simpl. split; [done|]. split; [done|]. split; [done|]. split; [|done].
    intros i [? Hi]. by rewrite lookup_empty in Hi.
  - rewrite many_starts_S, run_app.
    destruct IH as (Hq & Hlock & Hid & Hdom & Hids); [lia|].
    destruct (run (many_starts n) (world0, service0) []) as [[w s] ids].
    cbn [fst snd] in *.
    assert (wrap32 (ider_id s + 1) = Z.of_nat (S n)) as Hnext
      by (rewrite Hid, wrap32_small; lia).
    destruct (StartJob_quiet (Itoa (Z.of_nat n)) Background ["true"]
                default_limits w s Hq Hlock) as (w' & s' & HSJ & Hq' & Hl' & Hid' & Hst').
    { destruct (store s !! wrap32 (ider_id s + 1)) eqn:Hlk; [|done].
      destruct (Hdom (wrap32 (ider_id s + 1))); [by eexists|lia]. }
    cbn [run apply_op]. rewrite HSJ. cbn [fst snd ID new_record].
    split; [done|]. split; [done|]. split; [congruence|]. split.
    + intros i. rewrite Hst', Hnext.
      destruct (decide (Z.of_nat (S n) = i)) as [<-|]; [lia|].
      rewrite lookup_insert_ne by done. intros Hi. apply Hdom in Hi. lia.
    + rewrite Hids, Hnext, seq_S, fmap_app. done.
Qed.

(** After 2^31 calls the list of ids is not increasing. *)
Lemma many_starts_wrap :
  ¬ StronglySorted Z.lt
      (run (many_starts (Z.to_nat (2 ^ 31))) (world0, service0) []).2.
Proof.
  set (n := Z.to_nat (2 ^ 31 - 1)).
  assert (Z.of_nat n = 2 ^ 31 - 1) as Hn by (subst n; lia).
  replace (Z.to_nat (2 ^ 31)) with (S n) by (subst n; lia).
  clearbody n.
  rewrite many_starts_S, run_app.
  destruct (many_starts_run n) as (Hq & Hlock & Hid & Hdom & Hids); [lia|].
  destruct (run (many_starts n) (world0, service0) []) as [[w s] ids].
  cbn [fst snd] in *.
  assert (wrap32 (ider_id s + 1) = - 2 ^ 31) as Hnext
    by (rewrite Hid, Hn; reflexivity).
  destruct (StartJob_quiet (Itoa (Z.of_nat n)) Background ["true"]
              default_limits w s Hq Hlock) as (w' & s' & HSJ & _).
  { destruct (store s !! wrap32 (ider_id s + 1)) eqn:Hlk; [|done].
    destruct (Hdom (wrap32 (ider_id s + 1))); [by eexists|lia]. }
  cbn [run apply_op]. rewrite HSJ. cbn [fst snd ID new_record].
  rewrite Hnext. intros Hsorted.
  apply StronglySorted_app in Hsorted as (Hlt & _ & _).
  specialize (Hlt (Z.of_nat n) (- 2 ^ 31)).
  assert (Z.of_nat n < - 2 ^ 31); [|lia].
  apply Hlt; [|by apply list_elem_of_singleton].
  rewrite Hids. apply list_elem_of_fmap. exists n. split; [done|].
  apply elem_of_seq. lia.
Qed.

(** A service whose counter stands at 2^31 - 2, as it does after that many
    calls of [StartJob]. *)
Definition service_late : Service := set_ider_id 2147483646 service0.

(** The claim C8 fails here: in the run of 2^31 calls of [StartJob] on a
    fresh service, in a world that refuses nothing, every call succeeds and
    the ids are not in increasing order; and on a service whose counter
    stands at 2^31 - 2 the next two calls return the largest [int32] and
    then, later, the smallest, which is not strictly larger. *)
Lemma start_ids_counterexample :
  ¬ StronglySorted Z.lt
      (run (many_starts (Z.to_nat (2 ^ 31))) (world0, service0) []).2 ∧
  (run [ OpStart "6ba7b810" Background ["echo"; "hello"] default_limits;
         OpStart "6ba7b811" Background ["sleep"; "5"] default_limits ]
       (world0, service_late) []).2 = [2147483647; -2147483648] ∧
  ¬ (2147483647 < -2147483648).
Proof.
  split; [apply many_starts_wrap|].
  split; [vm_compute; reflexivity | lia].
Qed.

(** ** What [StopJob] returns *)

(** [StopJob] reads the result from the [Job] value of the record. *)
Lemma StopJob_stale ctx jobID pick w s rec st' code status :
  store s !! jobID = Some rec →
  jobs.cmd (Job rec) = None →
  StopJob ctx jobID pick (w, s) = (st', Ok (code, status)) →
  code = -1 ∧ status = jobs.StatusUnknown.
Proof.
  intros Hrec Hcmd. destruct s as [i lk st n pc ws]. simpl in Hrec.
  unfold StopJob, Lock, Unlock, inW, zoom, getS, getW, modS,
    mbind, M_bind, bind, mret, M_ret, ret, throw, block. simpl.
  destruct lk; simpl; [discriminate|]. rewrite Hrec. simpl.
  destruct (cancel (service.ctx rec) w) as [w1 [[]|?|?|]] eqn:Hcancel; simpl;
    try discriminate.
  unfold jobs.Result. rewrite Hcmd.
  repeat case_match; intros; by simplify_eq.
Qed.

(** In every run of a fresh service, a [StopJob] that returns a result
    returns -1 and "unknown", whatever became of the child. *)
Lemma StopJob_never_terminal ctx0 w0 w s ops ctx jobID pick st' code status :
  NewService ctx0 w0 = (w, Ok s) →
  StopJob ctx jobID pick (run ops (w, s) []).1 = (st', Ok (code, status)) →
  code = -1 ∧ status = jobs.StatusUnknown.
Proof.
  intros Hnew HStop. apply run_inv_fresh in Hnew.
  pose proof (run_run_inv ops (w, s) [] 0 Hnew) as [_ _ Hstale _].
  destruct (run ops (w, s) []).1 as [w1 s1] eqn:Hrun. simpl in Hstale.
  destruct (store s1 !! jobID) as [rec|] eqn:Hrec.
  - eapply StopJob_stale; eauto.
  - exfalso. revert HStop. destruct s1 as [i lk st n pc ws]. simpl in Hrec.
    unfold StopJob, Lock, Unlock, getS, modS, mbind, M_bind, bind, throw, block.
    simpl. destruct lk; simpl; [discriminate|]. rewrite Hrec. discriminate.
Qed.

(** The run of scenario 1: [echo hello] is started, writes its line,
    exits with code 0, and [job.Wait()] returns in its goroutine. *)
Definition echo_exited : world * Service :=
  (run [ OpStart "6ba7b810" Background ["echo"; "hello"] default_limits;
         OpWaiter 0 (jobs.mkChildIO [bytes_of "hello"] None "" None)
           (exec.Reaped (WExited 0)) ]
       (world0, service0) []).1.

(** C3 (code defect).  After that run the variable [job] on which [Wait]
    ran gives the result (0, "exited"), and [StopJob] for the id of the job
    returns (-1, "unknown"), read from the copy of the [Job] value that the
    record got before [job.Start()]. *)
Theorem StopJob_returns_stale_result :
  (λ g, jobs.Result echo_exited.1 (w_job g)) <$> waiters echo_exited.2 !! 0%nat
    = Some (0, jobs.StatusExited) ∧
  (StopJob Background 1 true echo_exited).2 = Ok (-1, jobs.StatusUnknown) ∧
  (StopJob Background 1 false echo_exited).2 = Ok (-1, jobs.StatusUnknown).
Proof. vm_compute. done. Qed.

End service_facts.

(* ===================================================================== *)
(** * Properties of the gRPC adapter *)
(* ===================================================================== *)

Module api_facts.
Import rt rt_facts service service_facts api.

(** The code of a status error. *)
Definition code_of {A} (r : res (A + rpc_error)) : option Code :=
  match r with
  | Ok (inr (StatusError c _)) => Some c
  | Ok (inl _) => Some OK
  | _ => None
  end.

Definition denied {A} : res (A + rpc_error) :=
  Ok (inr (StatusError Unauthenticated "unauthenticated")).
Definition unknown {A} : res (A + rpc_error) :=
  Ok (inr (StatusError Unknown "")).

Ltac run_gate :=
  unfold Get, Start, Stop, Stream, HasAccess, authorizer.HasAccess, inW, zoom,
    Println, Printf, modify, mbind, M_bind, bind, mret, M_ret, ret, panic;
  simpl.

(** The four handlers at a subject the authorizer does not know. *)
Lemma gate_unknown_subject j a c subject st uuid greq sreq preq treq pick :
  authz j = Some a → FromMD c = Some subject →
  authorizer.Users a !! subject = None →
  Get j c greq st = (st, unknown) ∧
  ((Start uuid j c sreq st).2 = unknown ∧ (Start uuid j c sreq st).1.2 = st.2) ∧
  ((Stop j c preq pick st).2 = unknown ∧ (Stop j c preq pick st).1.2 = st.2) ∧
  Stream j c treq pick st = (st, unknown).
Proof.
  intros Hj Hmd Hu. destruct st as [w s].
  run_gate. rewrite Hmd, Hj. simpl. rewrite Hu. done.
Qed.

(** A handler at a subject that is known and whose roles do not allow the
    action of the handler. *)
Lemma gate_not_allowed j a c subject user st uuid greq sreq preq treq pick :
  authz j = Some a → FromMD c = Some subject →
  authorizer.Users a !! subject = Some user →
  (authorizer.roles_allow authorizer.ActionGet (authorizer.Roles user) = false →
   Get j c greq st = (st, denied)) ∧
  (authorizer.roles_allow authorizer.ActionStart (authorizer.Roles user) = false →
   (Start uuid j c sreq st).2 = denied ∧ (Start uuid j c sreq st).1.2 = st.2) ∧
  (authorizer.roles_allow authorizer.ActionStop (authorizer.Roles user) = false →
   (Stop j c preq pick st).2 = denied ∧ (Stop j c preq pick st).1.2 = st.2) ∧
  (authorizer.roles_allow authorizer.ActionStream (authorizer.Roles user) = false →
   Stream j c treq pick st = (st, denied)).
Proof.
  intros Hj Hmd Hu. destruct st as [w s].
  split; [|split; [|split]]; intros Hno; run_gate; rewrite Hmd, Hj; simpl;
    rewrite Hu; simpl; rewrite Hno; done.
Qed.

(** [Get] at a subject whose roles allow it, for a job of the registry. *)
Lemma Get_allowed j a c subject user w s req record :
  authz j = Some a → FromMD c = Some subject →
  authorizer.Users a !! subject = Some user →
  authorizer.roles_allow authorizer.ActionGet (authorizer.Roles user) = true →
  locked s = false → store s !! get_id req = Some record →
  Get j c req (w, s) =
    ((w, s), Ok (inl {| Id := ID record; Cmd := [];
                        Status := jobs.Status (Job record) |})).
Proof.
  intros Hj Hmd Hu Hyes Hlock Hrec.
  unfold Get, HasAccess, authorizer.HasAccess, mbind, M_bind, bind, mret,
    M_ret, ret, try.
  rewrite Hmd, Hj. simpl. rewrite Hu, Hyes.
  by rewrite (GetJob_found _ _ _ _ record).
Qed.

(** C4, as the code has it.  With an authorizer in place and an identity on
    the context, each of the four handlers answers a subject the authorizer
    does not know with the code [Unknown], and a subject it knows but whose
    roles do not allow the action with the code [Unauthenticated], in both
    cases without touching the registry.  In particular the viewer of the
    fixtures gets [Unauthenticated] from [Start], while its [Get] of a job
    of the registry returns the job. *)
Theorem gate_codes (j : Jobs) (a : authorizer.Authorizer) (c : Context)
    (subject : string) (st : world * Service) (uuid : string)
    (greq : GetRequest) (sreq : StartRequest) (preq : StopRequest)
    (treq : StreamRequest) (pick : bool) :
  authz j = Some a →
  FromMD c = Some subject →
  (authorizer.Users a !! subject = None →
   code_of (Get j c greq st).2 = Some Unknown ∧
   code_of (Start uuid j c sreq st).2 = Some Unknown ∧
   code_of (Stop j c preq pick st).2 = Some Unknown ∧
   code_of (Stream j c treq pick st).2 = Some Unknown ∧
   (Get j c greq st).1.2 = st.2 ∧ (Start uuid j c sreq st).1.2 = st.2 ∧
   (Stop j c preq pick st).1.2 = st.2 ∧ (Stream j c treq pick st).1.2 = st.2) ∧
  (∀ user, authorizer.Users a !! subject = Some user →
   (authorizer.roles_allow authorizer.ActionGet (authorizer.Roles user) = false →
    code_of (Get j c greq st).2 = Some Unauthenticated ∧
    (Get j c greq st).1.2 = st.2) ∧
   (authorizer.roles_allow authorizer.ActionStart (authorizer.Roles user) = false →
    code_of (Start uuid j c sreq st).2 = Some Unauthenticated ∧
    (Start uuid j c sreq st).1.2 = st.2) ∧
   (authorizer.roles_allow authorizer.ActionStop (authorizer.Roles user) = false →
    code_of (Stop j c preq pick st).2 = Some Unauthenticated ∧
    (Stop j c preq pick st).1.2 = st.2) ∧
   (authorizer.roles_allow authorizer.ActionStream (authorizer.Roles user) = false →
    code_of (Stream j c treq pick st).2 = Some Unauthenticated ∧
    (Stream j c treq pick st).1.2 = st.2)) ∧
  (a = authorizer.NewAuthorizer → subject = "victor" →
   code_of (Start uuid j c sreq st).2 = Some Unauthenticated ∧
   ∀ record, locked st.2 = false → store st.2 !! get_id greq = Some record →
     (Get j c greq st).2 =
       Ok (inl {| Id := ID record; Cmd := [];
                  Status := jobs.Status (Job record) |})).
Proof.
  intros Hj Hmd. split; [|split].
  - intros Hu.
    destruct (gate_unknown_subject j a c subject st uuid greq sreq preq treq pick
                Hj Hmd Hu) as (HG & [HS1 HS2] & [HP1 HP2] & HT).
    rewrite HG, HS1, HP1, HT. done.
  - intros user Hu.
    destruct (gate_not_allowed j a c subject user st uuid greq sreq preq treq pick
                Hj Hmd Hu) as (HG & HS & HP & HT).
    split; [|split; [|split]]; intros Hno.
    + by rewrite (HG Hno).
    + by destruct (HS Hno) as [-> ->].
    + by destruct (HP Hno) as [-> ->].
    + by rewrite (HT Hno).
  - intros -> ->.
    assert (authorizer.Users authorizer.NewAuthorizer !! "victor"
            = Some authorizer.victor) as Hu by (vm_compute; reflexivity).
    split.
    + destruct (gate_not_allowed j _ c _ _ st uuid greq sreq preq treq pick
                  Hj Hmd Hu) as (_ & HS & _).
      destruct HS as [-> _]; done.
    + intros record Hlock Hrec. destruct st as [w s].
      by rewrite (Get_allowed j _ c _ _ w s greq record Hj Hmd Hu).
Qed.

(** The adapter with the fixtures as its authorizer, and the contexts of
    the three kinds of callers. *)
Definition jobsAPI : Jobs := {| authz := Some authorizer.NewAuthorizer |}.
Definition as_subject (subject : string) : Context :=
  {| authn_id := Some [subject]; ctx := Background |}.

Definition a_request : StartRequest :=
  {| cmd := ["ls"]; cpu_weight := 50; max_mem_use := 1000; max_disk_io := 7 |}.

(** The claim C4 fails here: the viewer "victor", whom the authorizer
    knows and whose role lacks the action start, gets the code
    [Unauthenticated] from [Start], not [PermissionDenied]; and "mallory",
    whom the authorizer does not know, gets [Unknown], not
    [Unauthenticated]. *)
Lemma gate_codes_counterexample :
  code_of (Start "6ba7b810" jobsAPI (as_subject "victor") a_request
             (world0, service0)).2 = Some Unauthenticated ∧
  Some Unauthenticated ≠ Some PermissionDenied ∧
  code_of (Start "6ba7b810" jobsAPI (as_subject "mallory") a_request
             (world0, service0)).2 = Some Unknown ∧
  Some Unknown ≠ Some Unauthenticated.
Proof. vm_compute. done. Qed.

Lemma gate_codes_witness :
  code_of (Start "6ba7b810" jobsAPI (as_subject "victor") a_request
             echo_exited).2 = Some Unauthenticated ∧
  (Get jobsAPI (as_subject "victor") (mkGetRequest 1) echo_exited).2 =
    Ok (inl {| Id := 1; Cmd := []; Status := "unknown" |}).
Proof.
  destruct (gate_codes jobsAPI authorizer.NewAuthorizer (as_subject "victor")
              "victor" echo_exited "6ba7b810" (mkGetRequest 1) a_request
              (mkStopRequest 1) (mkStreamRequest 1) true)
    as (_ & _ & Hviewer); [reflexivity | reflexivity |].
  destruct Hviewer as [HStart HGet]; [reflexivity | reflexivity |].
  split; [exact HStart|].
  apply (HGet (new_record "6ba7b810" Background ["echo"; "hello"]
                 default_limits world0 service0)).
  - vm_compute. reflexivity.
  - vm_compute. reflexivity.
Defined.

(** ** The limits of a started job *)

(** [Start] reads nothing of the request but [cmd]. *)
Lemma Start_ignores_limits uuid j c req req' st :
  cmd req = cmd req' → Start uuid j c req st = Start uuid j c req' st.
Proof. intros Hcmd. unfold Start. by rewrite Hcmd. Qed.

(** C6, as the code has it.  For a [Start] call that gets past the gate, on
    a registry whose mutex is free and where the next id is not taken, the
    job that is created and recorded under the new id has the limits
    [CpuWeight = 100], [MaxMem = 100000000] and [MaxIO = nil], whatever
    [cpu_weight], [max_mem_use] and [max_disk_io] the request carries: two
    requests with the same [cmd] lead to the same state and the same
    answer. *)
Theorem Start_fixed_limits (uuid : string) (j : Jobs)
    (a : authorizer.Authorizer) (c : Context) (subject : string)
    (user : authorizer.User) (req : StartRequest) (w : world) (s : Service) :
  authz j = Some a →
  FromMD c = Some subject →
  authorizer.Users a !! subject = Some user →
  authorizer.roles_allow authorizer.ActionStart (authorizer.Roles user) = true →
  locked s = false →
  store s !! wrap32 (ider_id s + 1) = None →
  (∃ record,
     store (Start uuid j c req (w, s)).1.2 !! wrap32 (ider_id s + 1) = Some record ∧
     jobs.limits (Job record) =
       {| cgroupz.CpuWeight := 100; cgroupz.MaxMem := 100000000;
          cgroupz.MaxIO := None |}) ∧
  (∀ cpu mem io,
     Start uuid j c req (w, s) =
     Start uuid j c {| cmd := cmd req; cpu_weight := cpu; max_mem_use := mem;
                       max_disk_io := io |} (w, s)).
Proof.
  intros Hj Hmd Hu Hyes Hlock Hfree. split.
  - unfold Start, HasAccess, authorizer.HasAccess, inW, zoom, Println, Printf,
      modify, try, mbind, M_bind, bind, mret, M_ret, ret.
    rewrite Hmd, Hj. cbn [fst snd]. rewrite Hu, Hyes.
    fold default_limits. rewrite StartJob_unfold by done.
    destruct (jobs.Start _) as [[w2 j2] [[]|?|?|]]; cbn [fst snd];
      (eexists; split; [apply lookup_insert_eq | reflexivity]).
  - intros cpu mem io. by apply Start_ignores_limits.
Qed.

(** The claim C6 fails here: "alice", who may start jobs, asks for
    [cpu_weight = 50], [max_mem_use = 1000] and [max_disk_io = 7]; the job is
    created with the limits 100, 100000000 and nil, and 100 is what is
    written to [cpu.weight]. *)
Lemma Start_limits_counterexample :
  let st := (Start "6ba7b810" jobsAPI (as_subject "alice") a_request
               (world0, service0)).1 in
  jobs.limits <$> (Job <$> store st.2 !! 1) = Some default_limits ∧
  cgroupz.CpuWeight default_limits ≠ cpu_weight a_request ∧
  cgroupz.MaxMem default_limits ≠ max_mem_use a_request ∧
  files st.1 !! "/lib_cgroup/6ba7b810/cpu.weight" = Some (bytes_of "100").
Proof. vm_compute. done. Qed.

Lemma Start_fixed_limits_witness :
  (∃ record,
     store (Start "6ba7b810" jobsAPI (as_subject "alice") a_request
              (world0, service0)).1.2 !! wrap32 (ider_id service0 + 1)
       = Some record ∧
     jobs.limits (Job record) = default_limits) ∧
  (∀ cpu mem io,
     Start "6ba7b810" jobsAPI (as_subject "alice") a_request (world0, service0) =
     Start "6ba7b810" jobsAPI (as_subject "alice")
       {| cmd := ["ls"]; cpu_weight := cpu; max_mem_use := mem;
          max_disk_io := io |} (world0, service0)).
Proof.
  apply (Start_fixed_limits "6ba7b810" jobsAPI authorizer.NewAuthorizer
           (as_subject "alice") "alice" authorizer.alice a_request
           world0 service0).
  - reflexivity.
  - reflexivity.
  - vm_compute. reflexivity.
  - vm_compute. reflexivity.
  - reflexivity.
  - reflexivity.
Defined.

End api_facts.
